(** * Naming resolution of quicktype's Reykjavik back end

    A shallow embedding of [src/Reykjavik/Naming.ts] (namespaces, the three
    kinds of [Named], the [NamingContext] and the driver [assignNames]) and
    of the [CountingNamingFunction] of [src/Reykjavik/Language/CSharp.ts],
    followed by the properties of the naming engine that the specification
    states about them.

    Objects of the TypeScript program are compared by reference
    ([equals] is [this === other] for [Namespace] and [Named]).  They are
    represented here by their addresses in a heap: a reference is a natural
    number and the heap maps every reference to the object's fields.
    [hashCode] only decides where the hashed collections of immutable.js
    store an object and in which order a hashed [Set] enumerates its
    elements; the ordered collections are lists in insertion order, and
    the only hashed set that the driver enumerates, [forbidden], is a
    list whose order is left open (the results do not depend on it, see
    [assignNames_deterministic]).

    Loops and recursions of the source take a bound here ([fuel]); a run
    that exhausts it ends in [OutOfFuel], and the lemmas say which bound
    is enough. *)

From Stdlib Require Import String Ascii List Arith Lia.
From stdpp Require Import base option list gmap sets strings pretty.

Open Scope string_scope.
Open Scope list_scope.
Open Scope nat_scope.

(** ** The operations of immutable.js that the source uses *)

Module Immutable.

Section OrderedSet.
Context {A : Type} `{EqDecision A}.

(** An [OrderedSet<A>] is the list of its elements in insertion order.
    [add] leaves the set alone when the element is already present. *)
Definition add (s : list A) (x : A) : list A :=
  if decide (x ∈ s) then s else s ++ [x].

(** [toOrderedSet()], and the implicit conversion that [map] and
    [flatMap] of an [OrderedSet] perform on their result. *)
Definition toOrderedSet (l : list A) : list A := foldl add [] l.

(** [s.union(...iters)]: every element of every collection is added in
    turn. *)
Definition union (s : list A) (iters : list (list A)) : list A :=
  foldl (foldl add) s iters.
End OrderedSet.

Section GroupBy.
Context {A K : Type} (same : K → K → bool).

(** [groupBy] of an ordered collection builds an [OrderedMap] from keys
    to the members having that key; keys are compared with
    [Immutable.is], groups appear in the order in which their key was
    first met, and members keep their order. *)
Fixpoint group_insert (k : K) (v : A) (groups : list (K * list A))
  : list (K * list A) :=
  match groups with
  | [] => [(k, [v])]
  | (k', vs) :: rest =>
      if same k' k then (k', vs ++ [v]) :: rest
      else (k', vs) :: group_insert k v rest
  end.

Definition groupBy (grouper : A → K) (l : list A) : list (K * list A) :=
  foldl (λ groups v, group_insert (grouper v) v groups) [] l.
End GroupBy.

End Immutable.

(** ** What a JavaScript computation can end in *)

(** The source throws plain strings ([throw "Named assigned twice"]); a
    method call on [undefined] or [null] throws a [TypeError]. *)
Inductive Thrown :=
  | ThrowString (msg : string)
  | TypeError.

Inductive Outcome (A : Type) :=
  | Returned (a : A)
  | Threw (e : Thrown)
  | OutOfFuel.
Arguments Returned {A} a.
Arguments Threw {A} e.
Arguments OutOfFuel {A}.

(** ** Data model *)

Abbreviation NsRef := nat (only parsing).
Abbreviation NamedRef := nat (only parsing).

(** [abstract class NamingFunction]: [name] produces the names, and
    [equals] lets immutable.js compare two naming functions.  The only
    [equals] of the repository, that of [CountingNamingFunction], is
    [other instanceof CountingNamingFunction]; [classTag] stands for the
    class of the instance and [equals] compares the classes.  [name]
    returns an [OrderedSet<string>]: the list is the sequence of names
    out of which the function builds that set, and the caller reads the
    set's elements with [Immutable.toOrderedSet], which keeps the first
    occurrence of each name. *)
Module NamingFunction.
Record t := {
  classTag : nat;
  name : string → gset string → nat → Outcome (list string)
}.
Definition equals (f g : t) : bool := bool_decide (classTag f = classTag g).
End NamingFunction.

(** The three subclasses of [Named].  [FixedNamed] passes [null] as the
    naming function to the base constructor, the other two pass theirs. *)
Inductive NamedKind :=
  | FixedNamed
  | SimpleNamed (namingFunction : NamingFunction.t) (_proposed : string)
  | DependencyNamed (namingFunction : NamingFunction.t)
      (_dependencies : list NamedRef)
      (_proposeName : list (option string) → string).

Record Named := {
  namespace : NsRef;
  name : string;
  kind : NamedKind
}.

Record Namespace := {
  _name : string;
  _parent : option NsRef;
  _children : list NsRef;   (* OrderedSet<Namespace> *)
  forbidden : list NsRef;   (* Set<Namespace>, in an iteration order *)
  _members : list NamedRef  (* OrderedSet<Named> *)
}.

(** The heap after the renderer has built the forest. *)
Record Heap := {
  ns_at : NsRef → Namespace;
  named_at : NamedRef → Named
}.

Section Objects.
Variable h : Heap.

Definition children (ns : NsRef) : list NsRef := _children (ns_at h ns).
Definition members (ns : NsRef) : list NamedRef := _members (ns_at h ns).

Definition namingFunction (n : NamedRef) : option NamingFunction.t :=
  match kind (named_at h n) with
  | FixedNamed => None
  | SimpleNamed f _ => Some f
  | DependencyNamed f _ _ => Some f
  end.

(** [get isFixed() { return this.namingFunction === null; }] *)
Definition isFixed (n : NamedRef) : bool :=
  match namingFunction n with None => true | Some _ => false end.

Definition dependencies (n : NamedRef) : list NamedRef :=
  match kind (named_at h n) with
  | FixedNamed => []
  | SimpleNamed _ _ => []
  | DependencyNamed _ deps _ => deps
  end.

(** [proposeName(names)].  The driver calls it with [null] in the pass
    over the fixed names and with [ctx.names] afterwards.  Only
    [DependencyNamed] reads [names]: [names.get(n)] for every
    dependency, which throws on [null] as soon as there is one. *)
Definition proposeName (n : NamedRef) (names : option (gmap NamedRef string))
  : Outcome string :=
  match kind (named_at h n) with
  | FixedNamed => Returned (name (named_at h n))
  | SimpleNamed _ proposed => Returned proposed
  | DependencyNamed _ deps f =>
      match names, deps with
      | None, _ :: _ => Threw TypeError
      | None, [] => Returned (f [])
      | Some names, _ => Returned (f (map (λ d, names !! d) deps))
      end
  end.

(** [Namespace.equals]: reference equality. *)
Definition Namespace_equals (a b : NsRef) : bool := bool_decide (a = b).

(** [allNamespacesRecursively]: the recursion follows [children]; [fuel]
    bounds its depth. *)
Fixpoint allNamespacesRecursively (fuel : nat) (namespaces : list NsRef)
  : option (list NsRef) :=
  match fuel with
  | 0 => None
  | S fuel' =>
      subs ← mapM (λ ns, allNamespacesRecursively fuel' (children ns))
                  namespaces;
      Some (Immutable.union namespaces (Immutable.toOrderedSet subs))
  end.
End Objects.

(** ** NamingContext *)

Record NamingContext := {
  names : gmap NamedRef string;
  namedsForName : gmap string (gset NamedRef);
  namespaces : list NsRef
}.

(** A method of the context: it may update the fields and ends normally
    or by throwing; the fields stay as they were at the throw. *)
Definition M (A : Type) : Type := NamingContext → Outcome A * NamingContext.

Definition ret {A} (a : A) : M A := λ ctx, (Returned a, ctx).
Definition throw {A} (e : Thrown) : M A := λ ctx, (Threw e, ctx).
Definition bind {A B} (m : M A) (k : A → M B) : M B := λ ctx,
  match m ctx with
  | (Returned a, ctx') => k a ctx'
  | (Threw e, ctx') => (Threw e, ctx')
  | (OutOfFuel, ctx') => (OutOfFuel, ctx')
  end.
Definition lift {A} (o : Outcome A) : M A := λ ctx, (o, ctx).
Definition get_ctx : M NamingContext := λ ctx, (Returned ctx, ctx).

Declare Scope js_scope.
Delimit Scope js_scope with js.
Notation "'let!' x ':=' m 'in' k" := (bind m (λ x, k))
  (at level 10, x pattern, m at level 100, k at level 200) : js_scope.
Notation "m ';;;' k" := (bind m (λ _, k))
  (at level 100, k at level 200, right associativity) : js_scope.

(** [forEach] with a callback that never returns [false]. *)
Fixpoint forEach {A} (f : A → M unit) (l : list A) : M unit :=
  match l with
  | [] => ret tt
  | x :: l' => (f x ;;; forEach f l')%js
  end.

Section ContextMethods.
Variable h : Heap.

Definition has_name (ctx : NamingContext) (n : NamedRef) : bool :=
  bool_decide (is_Some (names ctx !! n)).

Definition isReadyToBeNamed (ctx : NamingContext) (named : NamedRef) : bool :=
  if has_name ctx named then false
  else forallb (has_name ctx) (dependencies h named).

Definition isFullyNamed (ctx : NamingContext) (ns : NsRef) : bool :=
  forallb (has_name ctx) (members h ns).

(** The [forEach] of [isConflicting] stops at the first conflicting
    member; the result only says whether there is one. *)
Definition isConflicting (ctx : NamingContext) (named : NamedRef)
    (proposed : string) : bool :=
  match namedsForName ctx !! proposed with
  | None => false
  | Some nameds =>
      existsb
        (λ n, Namespace_equals (namespace (named_at h named))
                               (namespace (named_at h n))
              || bool_decide (namespace (named_at h n)
                                ∈ forbidden (ns_at h (namespace (named_at h named)))))
        (elements nameds)
  end.

(** [assign].  [Map] and [Set] of immutable.js are persistent:
    [this.namedsForName.set(name, Set())] returns a new map and leaves
    [this.namedsForName] as it was, and the source drops the result, as it
    drops that of [add].  The [get] that follows therefore finds what the
    field held before the call; when that is nothing, [get] returns
    [undefined] and calling [add] on it throws a [TypeError], after
    [this.names] has been updated. *)
Definition assign (named : NamedRef) (nm : string) : M unit := λ ctx,
  if has_name ctx named then (Threw (ThrowString "Named assigned twice"), ctx)
  else if isConflicting ctx named nm
  then (Threw (ThrowString "Assigned name conflicts"), ctx)
  else
    let ctx' := {| names := <[named := nm]> (names ctx);
                   namedsForName := namedsForName ctx;
                   namespaces := namespaces ctx |} in
    let _dropped_set : gmap string (gset NamedRef) :=
      if bool_decide (is_Some (namedsForName ctx' !! nm))
      then namedsForName ctx'
      else <[nm := ∅]> (namedsForName ctx') in
    match namedsForName ctx' !! nm with
    | None => (Threw TypeError, ctx')
    | Some nameds =>
        let _dropped_add : gset NamedRef := nameds ∪ {[named]} in
        (Returned tt, ctx')
    end.

(** [new NamingContext(rootNamespaces)] *)
Definition NamingContext_new (fuel : nat) (rootNamespaces : list NsRef)
  : option NamingContext :=
  nss ← allNamespacesRecursively h fuel rootNamespaces;
  Some {| names := ∅; namedsForName := ∅; namespaces := nss |}.
End ContextMethods.

(** ** The naming function of the C# renderer *)

Module CountingNamingFunction.

(** The set built in one round of the loop:
    [OrderedSet([proposedName + underscores])] for one name, else
    [range.map(i => proposedName + underscores + i).toOrderedSet()] with
    [range = Range(0, numberOfNames)].  [+] associates to the left, and
    a number is appended as its decimal numeral ([pretty]), which is what
    JavaScript does for the integers below 10^21. *)
Definition names (proposedName underscores : string) (numberOfNames : nat)
  : list string :=
  if decide (numberOfNames = 1)
  then Immutable.toOrderedSet [proposedName +:+ underscores]
  else Immutable.toOrderedSet
         (map (λ i : nat, (proposedName +:+ underscores) +:+ pretty i)
              (seq 0 numberOfNames)).

(** The [for (;;)] loop; [underscores] is the loop variable. *)
Fixpoint name_loop (fuel : nat) (proposedName : string)
    (forbiddenNames : gset string) (numberOfNames : nat)
    (underscores : string) : Outcome (list string) :=
  match fuel with
  | 0 => OutOfFuel
  | S fuel' =>
      let names := names proposedName underscores numberOfNames in
      if existsb (λ n, bool_decide (n ∈ forbiddenNames)) names
      then name_loop fuel' proposedName forbiddenNames numberOfNames
             (underscores +:+ "_")
      else Returned names
  end.

Definition name_fuel (fuel : nat) (proposedName : string)
    (forbiddenNames : gset string) (numberOfNames : nat)
  : Outcome (list string) :=
  if decide (numberOfNames < 1)
  then Threw (ThrowString "Number of names can't be less than 1")
  else name_loop fuel proposedName forbiddenNames numberOfNames "".

(** The method as the driver calls it.  One more round than there are
    forbidden names is always enough ([counting_name_correct] below). *)
Definition name (proposedName : string) (forbiddenNames : gset string)
    (numberOfNames : nat) : Outcome (list string) :=
  name_fuel (S (size forbiddenNames)) proposedName forbiddenNames
    numberOfNames.

(** [const countingNamingFunction = new CountingNamingFunction();] *)
Definition countingNamingFunction : NamingFunction.t :=
  {| NamingFunction.classTag := 0; NamingFunction.name := name |}.

End CountingNamingFunction.

(** ** The driver *)

Fixpoint mapO {A B} (f : A → Outcome B) (l : list A) : Outcome (list B) :=
  match l with
  | [] => Returned []
  | x :: l' =>
      match f x with
      | Returned y =>
          match mapO f l' with
          | Returned ys => Returned (y :: ys)
          | Threw e => Threw e
          | OutOfFuel => OutOfFuel
          end
      | Threw e => Threw e
      | OutOfFuel => OutOfFuel
      end
  end.

(** [Immutable.is] on the keys [n.namingFunction]: [null] is only equal
    to itself, two naming functions are compared with their [equals]. *)
Definition namingFunction_is (f g : option NamingFunction.t) : bool :=
  match f, g with
  | None, None => true
  | Some f, Some g => NamingFunction.equals f g
  | _, _ => false
  end.

Definition orderedSetUnion {A} `{EqDecision A} (sets : list (list A)) : list A :=
  match sets with
  | [] => []
  | [s] => s
  | s :: rest => Immutable.union s rest
  end.

Section Driver.
Variable h : Heap.

(** [ctx.namespaces.flatMap(ns => ns.members.filter(n => n.isFixed))] *)
Definition fixedNames (ctx : NamingContext) : list NamedRef :=
  Immutable.toOrderedSet
    (flat_map (λ ns, List.filter (isFixed h) (members h ns)) (namespaces ctx)).

(** The pass over the fixed names. *)
Definition assignFixed : M unit :=
  (let! ctx := get_ctx in
   forEach (λ n, let! nm := lift (proposeName h n None) in assign h n nm)
           (fixedNames ctx))%js.

(** Step 3: one set of [Named]s with the same naming function and the
    same proposed name ([namingFunction.name] on [null] is a
    [TypeError]).  [names.toArray()] lists the elements of the
    [OrderedSet] that the naming function returned. *)
Definition nameSet (namingFunction : option NamingFunction.t)
    (forbiddenNames : gset string) (nameds : list NamedRef)
    (proposed : string) : M unit :=
  let numNames := length nameds in
  match namingFunction with
  | None => throw TypeError
  | Some f =>
      (let! nms := lift (NamingFunction.name f proposed forbiddenNames numNames) in
       let namesArray := Immutable.toOrderedSet nms in
       if decide (length namesArray ≠ numNames)
       then throw (ThrowString "Naming function returned wrong number of names")
       else forEach (λ '(named, nm), assign h named nm)
                    (zip nameds namesArray))%js
  end.

(** The namespace chosen by step 1 of an iteration. *)
Definition unfinishedNamespaces (ctx : NamingContext) : list NsRef :=
  List.filter (isFullyNamed h ctx) (namespaces ctx).

Definition readyNamespace (ctx : NamingContext) : option NsRef :=
  List.find (λ ns, existsb (isReadyToBeNamed h ctx) (members h ns))
            (unfinishedNamespaces ctx).

(** The set computed for the chosen namespace,
    [forbiddenNameds.map(n => ctx.names.get(n)).toSet()].  A member of a
    forbidden namespace that has no name yet contributes [undefined],
    which is [None] here: the set holds [undefined] as one more
    element. *)
Definition forbiddenNameSet (ctx : NamingContext) (readyNamespace : NsRef)
  : gset (option string) :=
  let forbiddenNameds :=
    orderedSetUnion
      (Immutable.toOrderedSet
         (map (members h) (forbidden (ns_at h readyNamespace)))) in
  list_to_set (map (λ n, names ctx !! n) forbiddenNameds).

(** What a naming function sees of that set.  Its parameter is a
    [Set<string>] and it asks the set about strings
    ([forbiddenNames.has(n)]), so it is given the strings of the set;
    [undefined] is equal to none of them. *)
Definition forbiddenNames (ctx : NamingContext) (readyNamespace : NsRef)
  : gset string :=
  set_omap id (forbiddenNameSet ctx readyNamespace).

(** Steps 2 and 3 for the chosen namespace. *)
Definition nameNamespace (readyNamespace : NsRef) : M unit :=
  (let! ctx := get_ctx in
   let forbiddenNames := forbiddenNames ctx readyNamespace in
   let readyNames :=
     List.filter (isReadyToBeNamed h ctx) (members h readyNamespace) in
   let byNamingFunction :=
     Immutable.groupBy namingFunction_is (namingFunction h) readyNames in
   forEach
     (λ '(namingFunction, nameds),
        let! ctx := get_ctx in
        let! proposals :=
          lift (mapO (λ n, proposeName h n (Some (names ctx))) nameds) in
        let byProposed :=
          Immutable.groupBy String.eqb fst (zip proposals nameds) in
        forEach
          (λ '(proposed, set),
             nameSet namingFunction forbiddenNames (map snd set) proposed)
          byProposed)
     byNamingFunction)%js.

(** The [for (;;)] loop of [assignNames]. *)
Fixpoint assignNames_loop (fuel : nat) : M (gmap NamedRef string) :=
  match fuel with
  | 0 => lift OutOfFuel
  | S fuel' =>
      (let! ctx := get_ctx in
       match readyNamespace ctx with
       | None => ret (names ctx)
       | Some readyNamespace =>
           nameNamespace readyNamespace ;;; assignNames_loop fuel'
       end)%js
  end.

(** [assignNames(rootNamespaces)]: [depth] bounds the recursion of
    [allNamespacesRecursively], [fuel] the iterations of the loop. *)
Definition assignNames (depth fuel : nat) (rootNamespaces : list NsRef)
  : Outcome (gmap NamedRef string) :=
  match NamingContext_new h depth rootNamespaces with
  | None => OutOfFuel
  | Some ctx => fst ((assignFixed ;;; assignNames_loop fuel)%js ctx)
  end.
End Driver.

(** ** Notions of the specification *)

(** [underscores] after [k] rounds of [underscores += "_"]: the filler of
    length [k]. *)
Fixpoint filler (k : nat) : string :=
  match k with
  | 0 => ""
  | S k' => filler k' +:+ "_"
  end.

(** The names of one round as the specification writes them: the bare
    candidate with its filler for one name, and
    [candidate+filler+0 … candidate+filler+(count-1)] for more. *)
Definition batch (candidate : string) (k count : nat) : list string :=
  if decide (count = 1) then [candidate +:+ filler k]
  else map (λ i : nat, candidate +:+ filler k +:+ pretty i) (seq 0 count).

(** A round is blocked when one of its names is forbidden (the test of the
    loop of [CountingNamingFunction.name]). *)
Definition blocked (forbiddenNames : gset string) (nms : list string) : bool :=
  existsb (λ n, bool_decide (n ∈ forbiddenNames)) nms.

(** The namespaces reachable from the roots through [children]. *)
Inductive reachable (h : Heap) (roots : list NsRef) : NsRef → Prop :=
  | reachable_root ns : ns ∈ roots → reachable h roots ns
  | reachable_child parent child :
      reachable h roots parent → child ∈ children h parent →
      reachable h roots child.

(** A child is created after its parent ([parent.addChild(this)] in the
    constructor of the child), so in the order of creation its reference
    is the greater one; [bound] is the number of namespaces created. *)
Definition parent_first (h : Heap) (bound : nat) : Prop :=
  ∀ p c, c ∈ children h p → p < c ∧ c < bound.

(** The fixed members of the reachable namespaces. *)
Definition fixed_member (h : Heap) (roots : list NsRef) (n : NamedRef) : Prop :=
  ∃ ns, reachable h roots ns ∧ n ∈ members h ns ∧ isFixed h n = true.

(** A namespace is fully resolved when all its members have a name, and a
    member is ready when it has none and all its dependencies have one. *)
Definition fully_resolved (h : Heap) (ctx : NamingContext) (ns : NsRef) : Prop :=
  ∀ n, n ∈ members h ns → is_Some (names ctx !! n).

Definition ready (h : Heap) (ctx : NamingContext) (n : NamedRef) : Prop :=
  names ctx !! n = None ∧ ∀ d, d ∈ dependencies h n → is_Some (names ctx !! d).

(** The eligibility rule: all forbidden namespaces are fully resolved and
    some member is ready. *)
Definition eligible (h : Heap) (ctx : NamingContext) (ns : NsRef) : Prop :=
  (∀ f, f ∈ forbidden (ns_at h ns) → fully_resolved h ctx f)
  ∧ ∃ n, n ∈ members h ns ∧ ready h ctx n.

(** A context as the constructor leaves it. *)
Definition fresh (nss : list NsRef) : NamingContext :=
  {| names := ∅; namedsForName := ∅; namespaces := nss |}.

(** A sequence of calls of [assign] on one context.  A caller that
    catches what a call throws goes on with the fields as the call left
    them; the outcomes are collected in order. *)
Fixpoint assigns (h : Heap) (calls : list (NamedRef * string))
    (ctx : NamingContext) : list (Outcome unit) * NamingContext :=
  match calls with
  | [] => ([], ctx)
  | (named, nm) :: calls' =>
      let '(o, ctx') := assign h named nm ctx in
      let '(os, ctx'') := assigns h calls' ctx' in
      (o :: os, ctx'')
  end.

(** Two heaps hold the same forest when they differ at most in the order
    in which the forbidden sets, which are hashed sets, enumerate their
    elements. *)
Definition same_forest (h h' : Heap) : Prop :=
  (∀ ns, _name (ns_at h ns) = _name (ns_at h' ns)
         ∧ _parent (ns_at h ns) = _parent (ns_at h' ns)
         ∧ _children (ns_at h ns) = _children (ns_at h' ns)
         ∧ _members (ns_at h ns) = _members (ns_at h' ns)
         ∧ forbidden (ns_at h ns) ≡ₚ forbidden (ns_at h' ns))
  ∧ (∀ n, named_at h n = named_at h' n).

(** The error by which the driver rejects the result of a naming
    function. *)
Definition wrongNumberOfNames : Thrown :=
  ThrowString "Naming function returned wrong number of names".

Definition assignedNameConflicts : Thrown :=
  ThrowString "Assigned name conflicts".


(** ** Example forests *)

Definition unusedNamespace : Namespace :=
  {| _name := ""; _parent := None; _children := []; forbidden := [];
     _members := [] |}.

Definition unusedNamed : Named :=
  {| namespace := 0; name := ""; kind := FixedNamed |}.

(** The heap in which the [i]-th namespace and the [i]-th [Named] created
    are the [i]-th elements of the lists. *)
Definition heap_of (nss : list Namespace) (nameds : list Named) : Heap :=
  {| ns_at i := nth i nss unusedNamespace;
     named_at i := nth i nameds unusedNamed |}.

Definition counting : NamingFunction.t :=
  CountingNamingFunction.countingNamingFunction.

(** One namespace with one [SimpleNamed] proposing ["Foo"]. *)
Definition simple_forest : Heap :=
  heap_of
    [ {| _name := "global"; _parent := None; _children := [];
         forbidden := []; _members := [0] |} ]
    [ {| namespace := 0; name := "foo"; kind := SimpleNamed counting "Foo" |} ].

(** Namespace 0 holds one [SimpleNamed]; namespace 1, created after it,
    has no members and forbids namespace 0. *)
Definition eligibility_forest : Heap :=
  heap_of
    [ {| _name := "b"; _parent := None; _children := [];
         forbidden := []; _members := [0] |};
      {| _name := "a"; _parent := None; _children := [];
         forbidden := [0]; _members := [] |} ]
    [ {| namespace := 0; name := "foo"; kind := SimpleNamed counting "Foo" |} ].

(** One namespace with one [FixedNamed] called ["Type"]. *)
Definition fixed_forest : Heap :=
  heap_of
    [ {| _name := "global"; _parent := None; _children := [];
         forbidden := []; _members := [0] |} ]
    [ {| namespace := 0; name := "Type"; kind := FixedNamed |} ].

(** One namespace with two [FixedNamed]s, ["Type"] and ["Converter"]. *)
Definition keywords_forest : Heap :=
  heap_of
    [ {| _name := "keywords"; _parent := None; _children := [];
         forbidden := []; _members := [0; 1] |} ]
    [ {| namespace := 0; name := "Type"; kind := FixedNamed |};
      {| namespace := 0; name := "Converter"; kind := FixedNamed |} ].

(** One namespace with two [FixedNamed]s, both called ["Type"]. *)
Definition clash_forest : Heap :=
  heap_of
    [ {| _name := "global"; _parent := None; _children := [];
         forbidden := []; _members := [0; 1] |} ]
    [ {| namespace := 0; name := "Type"; kind := FixedNamed |};
      {| namespace := 0; name := "Type"; kind := FixedNamed |} ].

(** A naming function that returns the proposed name whatever is
    forbidden, and one that returns no name at all. *)
Definition echoNaming : NamingFunction.t :=
  {| NamingFunction.classTag := 1;
     NamingFunction.name proposed _ _ := Returned [proposed] |}.

Definition silentNaming : NamingFunction.t :=
  {| NamingFunction.classTag := 2;
     NamingFunction.name _ _ _ := Returned [] |}.

(** A namespace of keywords with the [FixedNamed] ["Type"], and a namespace
    created after it that forbids it and whose member proposes ["Type"]
    with the given naming function. *)
Definition keyword_clash_forest (f : NamingFunction.t) : Heap :=
  heap_of
    [ {| _name := "keywords"; _parent := None; _children := [];
         forbidden := []; _members := [0] |};
      {| _name := "global"; _parent := None; _children := [];
         forbidden := [0]; _members := [1] |} ]
    [ {| namespace := 0; name := "Type"; kind := FixedNamed |};
      {| namespace := 1; name := "type"; kind := SimpleNamed f "Type" |} ].

(** The context in which the keyword holds its name. *)
Definition keyword_named : NamingContext :=
  {| names := {[ 0 := "Type" ]}; namedsForName := ∅; namespaces := [1; 0] |}.

(** Two heaps with the same forest: two namespaces of reserved names, and
    a namespace with a child that forbids both, enumerated in either
    order. *)
Definition forest_order (fs : list NsRef) : Heap :=
  heap_of
    [ {| _name := "keywords"; _parent := None; _children := [];
         forbidden := []; _members := [] |};
      {| _name := "reserved"; _parent := None; _children := [];
         forbidden := []; _members := [] |};
      {| _name := "global"; _parent := None; _children := [3];
         forbidden := fs; _members := [0] |};
      {| _name := "class"; _parent := Some 2; _children := [];
         forbidden := []; _members := [1] |} ]
    [ {| namespace := 2; name := "top"; kind := SimpleNamed counting "TopLevel" |};
      {| namespace := 3; name := "prop";
         kind := DependencyNamed counting [0]
                   (λ nms, match nms with
                           | [Some top] => top +:+ "Value"
                           | _ => ""
                           end) |} ].

(** ** The constructors *)

(** The objects created so far: the heap, and the numbers of namespaces
    and of [Named]s created, which are the references of the next ones. *)
Record Store := {
  heap : Heap;
  nsCount : nat;
  namedCount : nat
}.

Definition emptyStore : Store :=
  {| heap := {| ns_at _ := unusedNamespace; named_at _ := unusedNamed |};
     nsCount := 0; namedCount := 0 |}.

Definition set_ns (h : Heap) (r : NsRef) (o : Namespace) : Heap :=
  {| ns_at i := if decide (i = r) then o else ns_at h i;
     named_at := named_at h |}.

Definition set_named (h : Heap) (r : NamedRef) (o : Named) : Heap :=
  {| ns_at := ns_at h;
     named_at i := if decide (i = r) then o else named_at h i |}.

Module Build.

(** [private addChild(child) { this._children = this._children.add(child); }] *)
Definition addChild (h : Heap) (this child : NsRef) : Heap :=
  set_ns h this
    {| _name := _name (ns_at h this); _parent := _parent (ns_at h this);
       _children := Immutable.add (_children (ns_at h this)) child;
       forbidden := forbidden (ns_at h this);
       _members := _members (ns_at h this) |}.

(** [add(named) { this._members = this._members.add(named); }] *)
Definition add (h : Heap) (this : NsRef) (named : NamedRef) : Heap :=
  set_ns h this
    {| _name := _name (ns_at h this); _parent := _parent (ns_at h this);
       _children := _children (ns_at h this);
       forbidden := forbidden (ns_at h this);
       _members := Immutable.add (_members (ns_at h this)) named |}.

(** [new Namespace(name, renderer, parent, forbidden)]; [renderer] is not
    used.  The new object gets its fields and, when there is a parent,
    its parent link, and the parent gets it as a child. *)
Definition Namespace_new (name : string) (parent : option NsRef)
    (forbidden : list NsRef) (s : Store) : NsRef * Store :=
  let this := nsCount s in
  let h1 :=
    set_ns (heap s) this
      {| _name := name; _parent := None; _children := [];
         forbidden := forbidden; _members := [] |} in
  let h2 :=
    match parent with
    | Some p =>
        addChild
          (set_ns h1 this
             {| _name := name; _parent := Some p; _children := [];
                forbidden := forbidden; _members := [] |})
          p this
    | None => h1
    end in
  (this, {| heap := h2; nsCount := S this; namedCount := namedCount s |}).

(** The constructor of [Named], which the three subclasses call with
    their naming function ([null] for [FixedNamed]): the fields, then
    [namespace.add(this)]. *)
Definition Named_new (namespace : NsRef) (name : string) (kind : NamedKind)
    (s : Store) : NamedRef * Store :=
  let this := namedCount s in
  let h1 :=
    set_named (heap s) this
      {| namespace := namespace; name := name; kind := kind |} in
  (this, {| heap := add h1 namespace this; nsCount := nsCount s;
            namedCount := S this |}).

Definition FixedNamed_new (namespace : NsRef) (name : string) :=
  Named_new namespace name FixedNamed.

Definition SimpleNamed_new (namespace : NsRef) (name : string)
    (namingFunction : NamingFunction.t) (proposed : string) :=
  Named_new namespace name (SimpleNamed namingFunction proposed).

Definition DependencyNamed_new (namespace : NsRef) (name : string)
    (namingFunction : NamingFunction.t) (dependencies : list NamedRef)
    (proposeName : list (option string) → string) :=
  Named_new namespace name
    (DependencyNamed namingFunction dependencies proposeName).

End Build.

(** One call of a constructor, and what the builder of a forest does: a
    sequence of such calls, each on objects that exist. *)
Inductive Construction :=
  | NewNamespace (name : string) (parent : option NsRef)
      (forbidden : list NsRef)
  | NewFixedNamed (ns : NsRef) (name : string)
  | NewSimpleNamed (ns : NsRef) (name : string)
      (namingFunction : NamingFunction.t) (proposed : string)
  | NewDependencyNamed (ns : NsRef) (name : string)
      (namingFunction : NamingFunction.t) (dependencies : list NamedRef)
      (proposeName : list (option string) → string).

Definition construct (c : Construction) (s : Store) : Store :=
  match c with
  | NewNamespace name parent forbidden =>
      (Build.Namespace_new name parent forbidden s).2
  | NewFixedNamed ns name => (Build.FixedNamed_new ns name s).2
  | NewSimpleNamed ns name f proposed =>
      (Build.SimpleNamed_new ns name f proposed s).2
  | NewDependencyNamed ns name f deps g =>
      (Build.DependencyNamed_new ns name f deps g s).2
  end.

(** The arguments of a call are objects created before it; a forbidden
    set has no repeated element. *)
Definition constructible (s : Store) (c : Construction) : Prop :=
  match c with
  | NewNamespace _ parent forbidden =>
      (∀ p, parent = Some p → p < nsCount s)
      ∧ Forall (λ f, f < nsCount s) forbidden ∧ NoDup forbidden
  | NewFixedNamed ns _ => ns < nsCount s
  | NewSimpleNamed ns _ _ _ => ns < nsCount s
  | NewDependencyNamed ns _ _ deps _ =>
      ns < nsCount s ∧ Forall (λ d, d < namedCount s) deps
  end.

Inductive built : Store → Prop :=
  | built_empty : built emptyStore
  | built_construct s c :
      built s → constructible s c → built (construct c s).

(** What the constructors keep true of the store: the objects not yet
    created are untouched; the children of a namespace are the namespaces
    created with it as parent, each after it; the ordered sets have no
    repeated element; the members of a namespace are the [Named]s created
    in it; and dependencies and forbidden namespaces are older than the
    object that refers to them. *)
Definition store_ok (s : Store) : Prop :=
  (∀ i, nsCount s ≤ i → ns_at (heap s) i = unusedNamespace)
  ∧ (∀ n, namedCount s ≤ n → named_at (heap s) n = unusedNamed)
  ∧ (∀ p c, c ∈ children (heap s) p ↔
            c < nsCount s ∧ _parent (ns_at (heap s) c) = Some p)
  ∧ (∀ c p, _parent (ns_at (heap s) c) = Some p → p < c)
  ∧ (∀ ns, NoDup (children (heap s) ns) ∧ NoDup (members (heap s) ns)
           ∧ NoDup (forbidden (ns_at (heap s) ns)))
  ∧ (∀ n ns, n ∈ members (heap s) ns ↔
             n < namedCount s ∧ namespace (named_at (heap s) n) = ns)
  ∧ (∀ n, n < namedCount s → namespace (named_at (heap s) n) < nsCount s)
  ∧ (∀ n d, d ∈ dependencies (heap s) n → d < n)
  ∧ (∀ ns f, f ∈ forbidden (ns_at (heap s) ns) → f < ns).

(** A [Named] depends on another one when a chain of [dependencies]
    leads from the first to the second. *)
Definition depends_on (h : Heap) : relation NamedRef :=
  tc (λ n d, d ∈ dependencies h n).

(** A forest as the C# renderer builds it: the namespace of keywords with
    a fixed name, the global namespace that forbids it with a top-level
    name and the name of its class, and the namespace of a class with a
    property. *)
Definition renderer_store : Store :=
  construct (NewSimpleNamed 2 "id" counting "Id")
    (construct (NewNamespace "TopLevel" (Some 1) [])
       (construct
          (NewDependencyNamed 1 "TopLevel" counting [1]
             (λ nms, match nms with [Some top] => top | _ => "" end))
          (construct (NewSimpleNamed 1 "TopLevel" counting "TopLevel")
             (construct (NewNamespace "global" None [0])
                (construct (NewFixedNamed 0 "QuickType")
                   (construct (NewNamespace "keywords" None [])
                      emptyStore)))))).

(** ** Nullable unions of the C# renderer *)

(** [nullableFromUnion(t)] on the members of the union; [isNull] is the
    test of the type graph.  [null] is [None]. *)
Definition nullableFromUnion {T : Type} (isNull : T → bool) (members : list T)
  : option T :=
  if negb (existsb isNull members) then None
  else
    let nonNulls := List.filter (λ m, negb (isNull m)) members in
    if decide (length nonNulls ≠ 1) then None
    else head nonNulls.


(** * Properties *)

(** ** Ordered sets *)

Section OrderedSetFacts.
Context {A : Type} `{EqDecision A}.

Lemma elem_of_add (s : list A) (x y : A) :
  y ∈ Immutable.add s x ↔ y ∈ s ∨ y = x.
Proof.
  unfold Immutable.add. case_decide.
  - split; [auto|]. intros [?| ->]; done.
  - rewrite elem_of_app, list_elem_of_singleton. done.
Qed.

Lemma elem_of_foldl_add (l s : list A) (y : A) :
  y ∈ foldl Immutable.add s l ↔ y ∈ s ∨ y ∈ l.
Proof.
  revert s. induction l as [|x l IH]; intros s; simpl.
  - rewrite elem_of_nil. tauto.
  - rewrite IH, elem_of_add, elem_of_cons. tauto.
Qed.

Lemma elem_of_toOrderedSet (l : list A) (y : A) :
  y ∈ Immutable.toOrderedSet l ↔ y ∈ l.
Proof.
  unfold Immutable.toOrderedSet. rewrite elem_of_foldl_add, elem_of_nil. tauto.
Qed.

Lemma elem_of_union (iters : list (list A)) (s : list A) (y : A) :
  y ∈ Immutable.union s iters ↔ y ∈ s ∨ ∃ it, it ∈ iters ∧ y ∈ it.
Proof.
  unfold Immutable.union. revert s.
  induction iters as [|it iters IH]; intros s; simpl.
  - split; [auto|]. intros [?|(it & []%elem_of_nil & _)]. done.
  - rewrite IH, elem_of_foldl_add. split.
    + intros [[?|?]|(it' & ? & ?)]; [by left|right..].
      * exists it. split; [left|done].
      * exists it'. split; [by right|done].
    + intros [?|(it' & [->|?]%elem_of_cons & ?)]; eauto.
Qed.

(** Adding elements that are new and distinct appends them. *)
Lemma foldl_add_fresh (l s : list A) :
  NoDup (s ++ l) → foldl Immutable.add s l = s ++ l.
Proof.
  revert s. induction l as [|x l IH]; intros s Hnd; simpl.
  - by rewrite app_nil_r.
  - assert (x ∉ s) as Hx.
    { apply NoDup_app in Hnd as (_ & Hd & _). intros Hin. apply (Hd x Hin). left. }
    unfold Immutable.add at 2. rewrite decide_False by done.
    rewrite IH; rewrite <- app_assoc; done.
Qed.

Lemma toOrderedSet_NoDup (l : list A) : NoDup l → Immutable.toOrderedSet l = l.
Proof. intros Hl. unfold Immutable.toOrderedSet. by rewrite foldl_add_fresh. Qed.

Lemma foldl_add_length (l s : list A) :
  length (foldl Immutable.add s l) ≤ length s + length l.
Proof.
  revert s. induction l as [|x l IH]; intros s; simpl; [lia|].
  etrans; [apply IH|]. unfold Immutable.add. case_decide; [lia|].
  rewrite length_app. simpl. lia.
Qed.

(** A collection with a repeated element loses elements when it is turned
    into an ordered set. *)
Lemma foldl_add_length_dup (l s : list A) :
  NoDup s → ¬ NoDup (s ++ l) →
  length (foldl Immutable.add s l) < length s + length l.
Proof.
  revert s. induction l as [|x l IH]; intros s Hs Hdup; simpl.
  - by rewrite app_nil_r in Hdup.
  - unfold Immutable.add at 2. case_decide as Hx.
    + pose proof (foldl_add_length l s). lia.
    + replace (length s + S (length l)) with (length (s ++ [x]) + length l)
        by (rewrite length_app; simpl; lia).
      apply IH.
      * apply NoDup_app. split_and!; [done| |apply NoDup_singleton].
        intros y Hy ->%list_elem_of_singleton. done.
      * by rewrite <-app_assoc.
Qed.

Lemma toOrderedSet_length_dup (l : list A) :
  ¬ NoDup l → length (Immutable.toOrderedSet l) < length l.
Proof.
  intros Hdup. unfold Immutable.toOrderedSet.
  apply (foldl_add_length_dup l []); [apply NoDup_nil_2|done].
Qed.
End OrderedSetFacts.

(** ** Strings and numerals *)

Lemma string_app_cons (a : ascii) (s1 s2 : string) :
  String a s1 +:+ s2 = String a (s1 +:+ s2).
Proof. reflexivity. Qed.

Lemma string_app_assoc (s1 s2 s3 : string) :
  (s1 +:+ s2) +:+ s3 = s1 +:+ (s2 +:+ s3).
Proof.
  induction s1 as [|a s1 IH]; [done|]. rewrite !string_app_cons. by f_equal.
Qed.

(** The decimal numeral of a number does not start with an underscore. *)
Lemma pretty_N_go_head (x : N) (s s' : string) :
  s ≠ String "_" s' → pretty_N_go x s ≠ String "_" s'.
Proof.
  revert s. induction (N.lt_wf_0 x) as [x _ IH]; intros s Hs.
  destruct (decide (x = 0)%N) as [->|Hx].
  - by rewrite pretty_N_go_0.
  - rewrite pretty_N_go_step by lia.
    apply IH; [apply N.div_lt; lia|].
    intros [= Hc _]. revert Hc. unfold pretty_N_char.
    repeat case_match; discriminate.
Qed.

Lemma pretty_nat_head (i : nat) (s : string) : pretty i ≠ String "_" s.
Proof.
  unfold pretty, pretty_nat, pretty, pretty_N.
  case_decide; [discriminate|]. by apply pretty_N_go_head.
Qed.

Lemma filler_S_l (k : nat) : filler (S k) = String "_" (filler k).
Proof.
  induction k as [|k IH]; [done|].
  change (filler (S (S k))) with (filler (S k) +:+ "_").
  rewrite IH at 1. by rewrite string_app_cons.
Qed.

Lemma filler_add (k d : nat) : filler (k + d) = filler k +:+ filler d.
Proof.
  induction k as [|k IH]; [done|].
  change (S k + d) with (S (k + d)). rewrite !filler_S_l, IH. done.
Qed.

Lemma filler_length (k : nat) : String.length (filler k) = k.
Proof.
  induction k as [|k IH]; [done|]. rewrite filler_S_l. simpl. by f_equal.
Qed.

(** Numbered names built with different fillers or different numbers
    differ. *)
Lemma numbered_inj (p : string) (k k' i j : nat) :
  (p +:+ filler k) +:+ pretty i = (p +:+ filler k') +:+ pretty j →
  k = k' ∧ i = j.
Proof.
  assert (∀ (k d i j : nat),
            (p +:+ filler k) +:+ pretty i = (p +:+ filler (k + d)) +:+ pretty j
            → d = 0 ∧ i = j) as Hle.
  { clear. intros k d i j.
    rewrite filler_add, <-(string_app_assoc p), !string_app_assoc.
    intros Heq. do 2 apply (inj (String.app _)) in Heq.
    destruct d as [|d].
    - split; [done|]. by apply (inj pretty).
    - rewrite filler_S_l, string_app_cons in Heq. by apply pretty_nat_head in Heq. }
  intros Heq. destruct (decide (k ≤ k')) as [Hk|Hk].
  - replace k' with (k + (k' - k)) in Heq by lia.
    apply Hle in Heq as [? ?]. split; [lia|done].
  - replace k with (k' + (k - k')) in Heq by lia.
    symmetry in Heq. apply Hle in Heq as [? ?]. split; [lia|done].
Qed.

Lemma single_inj (p : string) (k k' : nat) :
  p +:+ filler k = p +:+ filler k' → k = k'.
Proof.
  intros Heq%(inj (String.app _)).
  by rewrite <-(filler_length k), Heq, filler_length.
Qed.

(** ** The counting naming function *)

Section Counting.
Import CountingNamingFunction.

(** The set that a round of the loop builds is the batch of the
    specification: the conversion to an ordered set drops nothing. *)
Lemma names_batch (p : string) (k count : nat) :
  names p (filler k) count = batch p k count.
Proof.
  unfold names, batch. case_decide.
  - apply toOrderedSet_NoDup, NoDup_singleton.
  - rewrite toOrderedSet_NoDup.
    + apply map_ext. intros i. apply string_app_assoc.
    + apply (NoDup_fmap_2_strong _); [|apply NoDup_seq].
      intros i j _ _ Heq. by apply numbered_inj in Heq as [_ ?].
Qed.

Lemma batch_length (p : string) (k count : nat) :
  1 ≤ count → length (batch p k count) = count.
Proof.
  intros Hc. unfold batch. case_decide; [by subst|].
  by rewrite length_map, length_seq.
Qed.

Lemma batch_NoDup (p : string) (k count : nat) : NoDup (batch p k count).
Proof.
  unfold batch. case_decide; [apply NoDup_singleton|].
  apply (NoDup_fmap_2_strong _); [|apply NoDup_seq].
  intros i j _ _ Heq. rewrite <-!string_app_assoc in Heq.
  by apply numbered_inj in Heq as [_ ?].
Qed.

(** Batches with different fillers share no name. *)
Lemma batch_disjoint (p : string) (k k' count : nat) (x : string) :
  x ∈ batch p k count → x ∈ batch p k' count → k = k'.
Proof.
  unfold batch. case_decide.
  - intros ->%list_elem_of_singleton Heq%list_elem_of_singleton.
    by apply single_inj in Heq.
  - intros (i & -> & _)%list_elem_of_fmap (j & Heq & _)%list_elem_of_fmap.
    rewrite <-!string_app_assoc in Heq. by apply numbered_inj in Heq as [? _].
Qed.

Lemma blocked_true (F : gset string) (nms : list string) :
  blocked F nms = true ↔ ∃ x, x ∈ nms ∧ x ∈ F.
Proof.
  unfold blocked. rewrite existsb_exists. split.
  - intros (x & Hin & Hx). exists x. split; [by apply list_elem_of_In|].
    by apply bool_decide_eq_true in Hx.
  - intros (x & Hin & Hx). exists x. split; [by apply list_elem_of_In|].
    by apply bool_decide_eq_true.
Qed.

Lemma blocked_false (F : gset string) (nms : list string) :
  blocked F nms = false ↔ ∀ x, x ∈ nms → x ∉ F.
Proof.
  rewrite <-not_true_iff_false, blocked_true. split.
  - intros Hno x Hin HF. apply Hno. eauto.
  - intros Hall (x & Hin & HF). by apply (Hall x).
Qed.

(** Every forbidden name blocks at most one filler, so among the first
    fillers, one more than there are forbidden names, one is free. *)
Lemma free_filler (n : nat) :
  ∀ (F : gset string) (p : string) (count k : nat),
    size F ≤ n →
    ∃ j, j ≤ n ∧ blocked F (batch p (k + j) count) = false
         ∧ ∀ i, i < j → blocked F (batch p (k + i) count) = true.
Proof.
  induction n as [|n IH]; intros F p count k Hsize;
    destruct (blocked F (batch p k count)) eqn:Hk.
  - apply blocked_true in Hk as (x & _ & Hx).
    assert (size F ≠ 0); [|lia].
    intros Hz%size_empty_iff. set_solver.
  - exists 0. rewrite Nat.add_0_r. split_and!; [lia|done|intros; lia].
  - apply blocked_true in Hk as (x & Hxk & Hx).
    assert (∀ k', k' ≠ k →
              blocked (F ∖ {[x]}) (batch p k' count)
              = blocked F (batch p k' count)) as Hsame.
    { intros k' Hk'. apply eq_true_iff_eq. rewrite !blocked_true.
      split; intros (y & Hy & HyF); exists y; (split; [done|]).
      { by apply elem_of_difference in HyF as [? _]. }
      apply elem_of_difference. split; [done|].
      intros ->%elem_of_singleton. apply Hk'. by eapply batch_disjoint. }
    destruct (IH (F ∖ {[x]}) p count (S k)) as (j & Hj & Hfree & Hbusy).
    { rewrite size_difference by set_solver. rewrite size_singleton. lia. }
    exists (S j). split_and!; [lia|..].
    + rewrite <-Hsame by lia. by rewrite Nat.add_succ_r.
    + intros [|i] Hi.
      * rewrite Nat.add_0_r. apply blocked_true. eauto.
      * rewrite <-Hsame by lia. rewrite Nat.add_succ_r. apply Hbusy. lia.
  - exists 0. rewrite Nat.add_0_r. split_and!; [lia|done|intros; lia].
Qed.

(** The loop stops at the first free filler when it is given more rounds
    than there are blocked fillers before it. *)
Lemma name_loop_stops (p : string) (F : gset string) (count : nat) (j : nat) :
  ∀ (fuel k : nat), j < fuel →
    blocked F (batch p (k + j) count) = false →
    (∀ i, i < j → blocked F (batch p (k + i) count) = true) →
    name_loop fuel p F count (filler k) = Returned (batch p (k + j) count).
Proof.
  induction j as [|j IH]; intros fuel k Hfuel Hfree Hbusy;
    (destruct fuel as [|fuel]; [lia|]); simpl; rewrite names_batch;
    fold (blocked F (batch p k count)).
  - rewrite Nat.add_0_r in Hfree |- *. by rewrite Hfree.
  - specialize (Hbusy 0 ltac:(lia)) as Hk. rewrite Nat.add_0_r in Hk. rewrite Hk.
    change (filler k +:+ "_") with (filler (S k)).
    replace (k + S j) with (S k + j) in Hfree |- * by lia.
    apply IH; [lia|done|].
    intros i Hi. replace (S k + i) with (k + S i) by lia. apply Hbusy. lia.
Qed.

(** C7: for every candidate, finite forbidden set and count of at least
    one, [CountingNamingFunction.name] returns (with any number of
    rounds above the size of the forbidden set, which is what [name]
    runs with) the batch of the shortest filler none of whose names is
    forbidden: the candidate followed by the filler for one name, the
    candidate, the filler and the numbers [0] to [count - 1] for more;
    the names are [count] many, distinct, and none is forbidden. *)
Theorem counting_name_correct (candidate : string)
    (forbiddenStrings : gset string) (count fuel : nat) :
  1 ≤ count → size forbiddenStrings < fuel →
  ∃ k : nat,
    name_fuel fuel candidate forbiddenStrings count
      = Returned (batch candidate k count)
    ∧ name candidate forbiddenStrings count = Returned (batch candidate k count)
    ∧ length (batch candidate k count) = count
    ∧ NoDup (batch candidate k count)
    ∧ (∀ x, x ∈ batch candidate k count → x ∉ forbiddenStrings)
    ∧ (∀ j, j < k → ∃ x, x ∈ batch candidate j count ∧ x ∈ forbiddenStrings).
Proof.
  intros Hcount Hfuel.
  destruct (free_filler (size forbiddenStrings) forbiddenStrings candidate count 0)
    as (k & Hk & Hfree & Hbusy); [done|].
  simpl in Hfree, Hbusy. exists k.
  assert (∀ fuel', size forbiddenStrings < fuel' →
            name_fuel fuel' candidate forbiddenStrings count
            = Returned (batch candidate k count)) as Hrun.
  { intros fuel' Hfuel'. unfold name_fuel. rewrite decide_False by lia.
    change "" with (filler 0). by rewrite (name_loop_stops _ _ _ k); [|lia|..]. }
  split_and!.
  - by apply Hrun.
  - apply Hrun. lia.
  - by apply batch_length.
  - apply batch_NoDup.
  - by apply blocked_false.
  - intros j Hj. apply blocked_true. by apply Hbusy.
Qed.

Lemma counting_name_correct_witness :
  1 ≤ 3 ∧ size ({[ "Foo0"; "Foo_1" ]} : gset string) < 3
  ∧ ∃ k : nat,
      name_fuel 3 "Foo" {[ "Foo0"; "Foo_1" ]} 3 = Returned (batch "Foo" k 3)
      ∧ name "Foo" {[ "Foo0"; "Foo_1" ]} 3 = Returned (batch "Foo" k 3)
      ∧ length (batch "Foo" k 3) = 3
      ∧ NoDup (batch "Foo" k 3)
      ∧ (∀ x, x ∈ batch "Foo" k 3 → x ∉ ({[ "Foo0"; "Foo_1" ]} : gset string))
      ∧ (∀ j, j < k →
           ∃ x, x ∈ batch "Foo" j 3 ∧ x ∈ ({[ "Foo0"; "Foo_1" ]} : gset string)).
Proof.
  split; [lia|]. split; [vm_compute; lia|].
  apply (counting_name_correct "Foo" {[ "Foo0"; "Foo_1" ]} 3 3);
    [lia|vm_compute; lia].
Defined.

(** The scenarios of the specification. *)
Example counting_two_names :
  name "Foo" ∅ 2 = Returned ["Foo0"; "Foo1"].
Proof. reflexivity. Qed.

Example counting_avoids_forbidden :
  name "Type" {[ "Type" ]} 1 = Returned ["Type_"].
Proof. vm_compute. reflexivity. Qed.

Example counting_shared_filler :
  name "Foo" {[ "Foo0"; "Foo_1" ]} 3 = Returned ["Foo__0"; "Foo__1"; "Foo__2"].
Proof. vm_compute. reflexivity. Qed.

Example counting_rejects_zero :
  name "Foo" ∅ 0 = Threw (ThrowString "Number of names can't be less than 1").
Proof. reflexivity. Qed.
End Counting.

(** ** The namespaces of a context *)

Section Reachability.
Variable h : Heap.

Lemma reachable_children (root : NsRef) (roots : list NsRef) (ns : NsRef) :
  root ∈ roots → reachable h (children h root) ns → reachable h roots ns.
Proof.
  intros Hroot Hns. induction Hns as [ns Hin|p c _ IH Hc].
  - apply reachable_child with root; [by apply reachable_root|done].
  - by apply reachable_child with p.
Qed.

(** The result of [allNamespacesRecursively] contains the roots, is closed
    under [children], and holds reachable namespaces only. *)
Lemma allNamespacesRecursively_spec (fuel : nat) :
  ∀ (roots nss : list NsRef),
    allNamespacesRecursively h fuel roots = Some nss →
    (∀ ns, ns ∈ roots → ns ∈ nss)
    ∧ (∀ p c, p ∈ nss → c ∈ children h p → c ∈ nss)
    ∧ (∀ ns, ns ∈ nss → reachable h roots ns).
Proof.
  induction fuel as [|fuel IH]; intros roots nss Hrun; [done|].
  simpl in Hrun. apply bind_Some in Hrun as (subs & Hsubs & [= <-]).
  apply mapM_Some in Hsubs.
  assert (∀ sub, sub ∈ subs → ∃ root, root ∈ roots
            ∧ allNamespacesRecursively h fuel (children h root) = Some sub)
    as Hsub.
  { intros sub Hin. apply list_elem_of_lookup in Hin as [i Hi].
    destruct (Forall2_lookup_r _ _ _ _ _ Hsubs Hi) as (root & Hroot & Hr).
    exists root. split; [|done]. apply list_elem_of_lookup. eauto. }
  assert (∀ root, root ∈ roots → ∃ sub, sub ∈ subs
            ∧ allNamespacesRecursively h fuel (children h root) = Some sub)
    as Hroot.
  { intros root Hin. apply list_elem_of_lookup in Hin as [i Hi].
    destruct (Forall2_lookup_l _ _ _ _ _ Hsubs Hi) as (sub & Hs & Hr).
    exists sub. split; [|done]. apply list_elem_of_lookup. eauto. }
  split_and!.
  - intros ns Hns. apply elem_of_union. by left.
  - intros p c Hp Hc. apply elem_of_union. right.
    apply elem_of_union in Hp as [Hp|(sub & Hsin & Hp)].
    + destruct (Hroot p Hp) as (sub & Hsin & Hrun).
      exists sub. split; [by apply elem_of_toOrderedSet|].
      by apply (IH _ _ Hrun).
    + exists sub. split; [done|]. rewrite elem_of_toOrderedSet in Hsin.
      destruct (Hsub sub Hsin) as (root & _ & Hrun).
      destruct (IH _ _ Hrun) as (_ & Hclosed & _). by apply (Hclosed p c).
  - intros ns [Hns|(sub & Hsin & Hns)]%elem_of_union.
    + by apply reachable_root.
    + rewrite elem_of_toOrderedSet in Hsin.
      destruct (Hsub sub Hsin) as (root & Hr & Hrun).
      apply reachable_children with root; [done|]. by apply (IH _ _ Hrun).
Qed.

Lemma allNamespacesRecursively_reachable (fuel : nat) (roots nss : list NsRef)
    (ns : NsRef) :
  allNamespacesRecursively h fuel roots = Some nss →
  ns ∈ nss ↔ reachable h roots ns.
Proof.
  intros (Hroots & Hclosed & Hreach)%allNamespacesRecursively_spec.
  split; [apply Hreach|]. induction 1; eauto.
Qed.

(** A deeper bound gives the same namespaces. *)
Lemma allNamespacesRecursively_mono (fuel : nat) :
  ∀ (fuel' : nat) (roots nss : list NsRef), fuel ≤ fuel' →
    allNamespacesRecursively h fuel roots = Some nss →
    allNamespacesRecursively h fuel' roots = Some nss.
Proof.
  induction fuel as [|fuel IH]; intros fuel' roots nss Hle Hrun; [done|].
  destruct fuel' as [|fuel']; [lia|]. simpl in *.
  apply bind_Some in Hrun as (subs & Hsubs & [= <-]).
  apply bind_Some. exists subs. split; [|done].
  apply mapM_Some. apply mapM_Some in Hsubs.
  eapply Forall2_impl; [done|]. intros root sub Hr. simpl in *.
  apply IH; [lia|done].
Qed.
Lemma allNamespacesRecursively_S (fuel : nat) (roots : list NsRef) :
  allNamespacesRecursively h (S fuel) roots =
    subs ← mapM (λ ns, allNamespacesRecursively h fuel (children h ns)) roots;
    Some (Immutable.union roots (Immutable.toOrderedSet subs)).
Proof. reflexivity. Qed.

(** In a forest built by the constructors, where a child is created after
    its parent, the recursion ends within a depth of the number of
    namespaces plus two. *)
Lemma allNamespacesRecursively_total (bound : nat) :
  parent_first h bound →
  ∀ roots, is_Some (allNamespacesRecursively h (2 + bound) roots).
Proof.
  intros Hwf.
  assert (∀ k roots, k ≤ bound → (∀ r, r ∈ roots → bound - k ≤ r) →
            is_Some (allNamespacesRecursively h (2 + k) roots)) as Hgen.
  { induction k as [|k IH]; intros roots Hk Hroots;
      change (2 + ?n) with (S (S n)); rewrite allNamespacesRecursively_S;
      match goal with
      | |- is_Some (mbind _ ?m) => assert (is_Some m) as [subs ->]; [|by eexists]
      end;
      apply mapM_is_Some, Forall_forall; intros r Hr; simpl.
    - destruct (children h r) as [|c cs] eqn:Hc; [by eexists|].
      destruct (Hwf r c) as [? ?]; [rewrite Hc; left|].
      specialize (Hroots r Hr). lia.
    - apply (IH (children h r)); [lia|]. intros c Hc.
      destruct (Hwf r c Hc) as [? ?]. specialize (Hroots r Hr). lia. }
  intros roots. apply Hgen; [done|]. intros. lia.
Qed.
End Reachability.

(** ** The naming context *)

Section ContextFacts.
Variable h : Heap.

Lemma has_name_true (ctx : NamingContext) (n : NamedRef) :
  has_name ctx n = true ↔ is_Some (names ctx !! n).
Proof. apply bool_decide_eq_true. Qed.

Lemma has_name_false (ctx : NamingContext) (n : NamedRef) :
  has_name ctx n = false ↔ names ctx !! n = None.
Proof.
  unfold has_name. rewrite bool_decide_eq_false. symmetry.
  apply eq_None_not_Some.
Qed.

Lemma isConflicting_no_index (ctx : NamingContext) (named : NamedRef)
    (proposed : string) :
  namedsForName ctx = ∅ → isConflicting h ctx named proposed = false.
Proof. intros Hempty. unfold isConflicting. by rewrite Hempty, lookup_empty. Qed.

(** [assign] changes neither the index nor the list of namespaces. *)
Lemma assign_namedsForName (named : NamedRef) (nm : string)
    (ctx : NamingContext) :
  namedsForName (assign h named nm ctx).2 = namedsForName ctx.
Proof. unfold assign. repeat case_match; done. Qed.

(** A call that returns has recorded the name of a [Named] that had
    none. *)
Lemma assign_Returned (named : NamedRef) (nm : string)
    (ctx ctx' : NamingContext) :
  assign h named nm ctx = (Returned (), ctx') →
  names ctx !! named = None ∧ names ctx' = <[named := nm]> (names ctx).
Proof.
  unfold assign. destruct (has_name ctx named) eqn:Hhas; [done|].
  apply has_name_false in Hhas.
  repeat case_match; intros [= <-]; done.
Qed.

(** With an empty index a call throws: a second assignment is detected,
    any other call records the name and fails on [undefined]. *)
Lemma assign_no_index (named : NamedRef) (nm : string) (ctx : NamingContext) :
  namedsForName ctx = ∅ →
  assign h named nm ctx =
    if has_name ctx named
    then (Threw (ThrowString "Named assigned twice"), ctx)
    else (Threw TypeError,
          {| names := <[named := nm]> (names ctx);
             namedsForName := namedsForName ctx;
             namespaces := namespaces ctx |}).
Proof.
  intros Hempty. unfold assign. destruct (has_name ctx named); [done|].
  rewrite isConflicting_no_index by done. simpl.
  by rewrite Hempty, lookup_empty.
Qed.

Lemma assigns_namedsForName (calls : list (NamedRef * string))
    (ctx : NamingContext) :
  namedsForName (assigns h calls ctx).2 = namedsForName ctx.
Proof.
  revert ctx. induction calls as [|[named nm] calls IH]; intros ctx; [done|].
  simpl. destruct (assign h named nm ctx) as [o ctx'] eqn:Hone.
  specialize (IH ctx'). destruct (assigns h calls ctx') as [os ctx''].
  simpl in *. rewrite IH.
  by rewrite <-(assign_namedsForName named nm ctx), Hone.
Qed.

Lemma assigns_no_conflict (calls : list (NamedRef * string))
    (ctx : NamingContext) :
  namedsForName ctx = ∅ →
  Threw assignedNameConflicts ∉ (assigns h calls ctx).1.
Proof.
  revert ctx. induction calls as [|[named nm] calls IH]; intros ctx Hempty.
  { apply not_elem_of_nil. }
  simpl. pose proof (assign_namedsForName named nm ctx) as Hsame.
  pose proof (assign_no_index named nm ctx Hempty) as Hone.
  destruct (assign h named nm ctx) as [o ctx']. simpl in Hsame.
  specialize (IH ctx'). destruct (assigns h calls ctx') as [os ctx''].
  simpl in *. apply not_elem_of_cons. split; [|apply IH; congruence].
  intros <-. unfold assignedNameConflicts in Hone.
  destruct (has_name ctx named); discriminate Hone.
Qed.
End ContextFacts.

(** C5: after any sequence of calls of [assign] on a new context the
    index [namedsForName] is still the empty map, so [isConflicting] is
    false for every [Named] and every proposed name, and no call has
    thrown "Assigned name conflicts". *)
Theorem namedsForName_stays_empty (h : Heap) (nss : list NsRef)
    (calls : list (NamedRef * string)) :
  namedsForName (assigns h calls (fresh nss)).2 = ∅
  ∧ (∀ (named : NamedRef) (proposed : string),
       isConflicting h (assigns h calls (fresh nss)).2 named proposed = false)
  ∧ Threw assignedNameConflicts ∉ (assigns h calls (fresh nss)).1.
Proof.
  assert (namedsForName (assigns h calls (fresh nss)).2 = ∅) as Hempty.
  { by rewrite assigns_namedsForName. }
  split_and!; [done| |by apply assigns_no_conflict].
  intros named proposed. by apply isConflicting_no_index.
Qed.

(** ** The driver *)

Section DriverFacts.
Variable h : Heap.

Lemma isReadyToBeNamed_has_name (ctx : NamingContext) (n : NamedRef) :
  isReadyToBeNamed h ctx n = true → has_name ctx n = false.
Proof. unfold isReadyToBeNamed. by destruct (has_name ctx n). Qed.

(** A namespace that is fully named has no member that is ready. *)
Lemma isFullyNamed_no_ready (ctx : NamingContext) (ns : NsRef) :
  isFullyNamed h ctx ns = true →
  existsb (isReadyToBeNamed h ctx) (members h ns) = false.
Proof.
  unfold isFullyNamed. intros Hall. apply not_true_iff_false.
  intros (n & Hin & Hready)%existsb_exists.
  rewrite forallb_forall in Hall. specialize (Hall n Hin).
  apply isReadyToBeNamed_has_name in Hready. congruence.
Qed.

(** Step 1 looks for a ready member among the namespaces that are fully
    named, and so never finds a namespace. *)
Lemma readyNamespace_None (ctx : NamingContext) : readyNamespace h ctx = None.
Proof.
  unfold readyNamespace. destruct (find _ _) as [ns|] eqn:Hfind; [|done].
  apply find_some in Hfind as [Hin Hready].
  apply filter_In in Hin as [_ Hfull].
  by rewrite isFullyNamed_no_ready in Hready.
Qed.

(** The loop returns in its first iteration, with the names it was
    entered with. *)
Lemma assignNames_loop_S (fuel : nat) (ctx : NamingContext) :
  assignNames_loop h (S fuel) ctx = (Returned (names ctx), ctx).
Proof. simpl. unfold bind, get_ctx. by rewrite readyNamespace_None. Qed.

Lemma proposeName_fixed (n : NamedRef) (nms : option (gmap NamedRef string)) :
  isFixed h n = true → proposeName h n nms = Returned (name (named_at h n)).
Proof.
  unfold isFixed, namingFunction, proposeName.
  by destruct (kind (named_at h n)).
Qed.

(** When a pass of [assign] over a list returns, the [Named]s with a name
    are those that had one and those of the list. *)
Lemma forEach_assign_Returned (propose : NamedRef → Outcome string)
    (l : list NamedRef) :
  ∀ ctx ctx',
    forEach (λ n, let! nm := lift (propose n) in assign h n nm)%js l ctx
      = (Returned (), ctx') →
    ∀ n, is_Some (names ctx' !! n) ↔ is_Some (names ctx !! n) ∨ n ∈ l.
Proof.
  induction l as [|x l IH]; intros ctx ctx' Hrun n; simpl in Hrun.
  - injection Hrun as <-. rewrite elem_of_nil. tauto.
  - unfold bind at 1 in Hrun.
    destruct (bind (lift (propose x)) _ ctx) as [[[]|e|] ctx1] eqn:Hone;
      [|done..].
    unfold bind, lift in Hone. destruct (propose x) as [nm|e|]; [|done..].
    apply assign_Returned in Hone as [Hnone Hnames].
    rewrite (IH _ _ Hrun n), Hnames, elem_of_cons.
    destruct (decide (n = x)) as [->|Hne].
    + rewrite lookup_insert_eq. split; [auto|]. intros _. left. eauto.
    + rewrite lookup_insert_ne by done. split.
      * intros [?|?]; auto.
      * intros [?|[?|?]]; auto. done.
Qed.

(** On a context with an empty index the pass over a list that is not
    empty throws. *)
Lemma forEach_assign_throws (propose : NamedRef → Outcome string)
    (l : list NamedRef) (ctx : NamingContext) :
  namedsForName ctx = ∅ → l ≠ [] →
  ∀ ctx', forEach (λ n, let! nm := lift (propose n) in assign h n nm)%js l ctx
          ≠ (Returned (), ctx').
Proof.
  intros Hempty Hl ctx' Hrun. destruct l as [|x l]; [done|].
  simpl in Hrun. unfold bind at 1 in Hrun.
  destruct (bind (lift (propose x)) _ ctx) as [[[]|e|] ctx1] eqn:Hone;
    [|done..].
  unfold bind, lift in Hone. destruct (propose x) as [nm|e|]; [|done..].
  rewrite assign_no_index in Hone by done.
  by destruct (has_name ctx x).
Qed.

Lemma elem_of_fixedNames (ctx : NamingContext) (n : NamedRef) :
  n ∈ fixedNames h ctx ↔
  ∃ ns, ns ∈ namespaces ctx ∧ n ∈ members h ns ∧ isFixed h n = true.
Proof.
  unfold fixedNames. rewrite elem_of_toOrderedSet, list_elem_of_In, in_flat_map.
  split; intros (ns & Hns & Hn); exists ns.
  - apply filter_In in Hn as [Hn Hfix]. by rewrite !list_elem_of_In.
  - destruct Hn as [Hn Hfix]. rewrite <-list_elem_of_In. split; [done|].
    apply filter_In. by rewrite <-list_elem_of_In.
Qed.

(** A run that returns has flattened the forest, passed over the fixed
    names without a throw, and returns the names recorded by then. *)
Lemma assignNames_Returned (depth fuel : nat) (roots : list NsRef)
    (m : gmap NamedRef string) :
  assignNames h depth fuel roots = Returned m →
  ∃ nss ctx',
    allNamespacesRecursively h depth roots = Some nss
    ∧ assignFixed h (fresh nss) = (Returned (), ctx')
    ∧ m = names ctx'.
Proof.
  unfold assignNames, NamingContext_new.
  destruct (allNamespacesRecursively h depth roots) as [nss|]; [|done].
  simpl. fold (fresh nss). unfold bind at 1.
  destruct (assignFixed h (fresh nss)) as [[[]|e|] ctx'] eqn:Hfixed; [|done..].
  destruct fuel as [|fuel]; [done|]. rewrite assignNames_loop_S. simpl.
  intros [= <-]. eauto.
Qed.

(** The mapping of a run that returns has no entry. *)
Lemma assignNames_Returned_empty (depth fuel : nat) (roots : list NsRef)
    (m : gmap NamedRef string) :
  assignNames h depth fuel roots = Returned m → m = ∅.
Proof.
  intros (nss & ctx' & _ & Hfixed & ->)%assignNames_Returned.
  unfold assignFixed, bind, get_ctx in Hfixed.
  destruct (fixedNames h (fresh nss)) as [|n l] eqn:Hl.
  - simpl in Hfixed. by injection Hfixed as <-.
  - by apply forEach_assign_throws in Hfixed.
Qed.

(** A forest with a fixed member makes the run throw. *)
Lemma assignNames_fixed_throws (depth fuel : nat) (roots : list NsRef)
    (n : NamedRef) (m : gmap NamedRef string) :
  fixed_member h roots n → assignNames h depth fuel roots ≠ Returned m.
Proof.
  intros (ns & Hns & Hn & Hfix) (nss & ctx' & Hnss & Hfixed & ->)%assignNames_Returned.
  unfold assignFixed, bind, get_ctx in Hfixed.
  apply forEach_assign_throws in Hfixed; [done|done|].
  assert (n ∈ fixedNames h (fresh nss)) as Hin.
  { apply elem_of_fixedNames. exists ns. split; [|done]. simpl.
    by apply (allNamespacesRecursively_reachable h depth roots). }
  intros Hnil. rewrite Hnil in Hin. by apply elem_of_nil in Hin.
Qed.

(** The pass over the fixed names and the loop come to an end. *)
Lemma assignFixed_ends (ctx : NamingContext) : (assignFixed h ctx).1 ≠ OutOfFuel.
Proof.
  unfold assignFixed, bind at 1, get_ctx.
  generalize (fixedNames h ctx). intros l. revert ctx.
  induction l as [|n l IH]; intros ctx; [done|].
  simpl. unfold bind at 1.
  destruct (bind (lift (proposeName h n None)) _ ctx) as [[[]|e|] ctx1] eqn:Hone;
    [apply IH|done|].
  unfold bind, lift in Hone.
  unfold proposeName in Hone.
  destruct (kind (named_at h n)) as [|f p|f [|d deps] g]; simpl in Hone;
    try discriminate Hone;
    unfold assign in Hone; repeat case_match; discriminate Hone.
Qed.

Lemma assignNames_ends (bound fuel : nat) (roots : list NsRef) :
  parent_first h bound →
  assignNames h (2 + bound) (S fuel) roots ≠ OutOfFuel.
Proof.
  intros Hwf. unfold assignNames, NamingContext_new.
  destruct (allNamespacesRecursively_total h bound Hwf roots) as [nss ->].
  cbn -[assignNames_loop assignFixed]. unfold bind at 1.
  pose proof (assignFixed_ends (fresh nss)) as Hfixed. unfold fresh in Hfixed.
  destruct (assignFixed h _) as [[[]|e|] ctx']; [|done..].
  by rewrite assignNames_loop_S.
Qed.
End DriverFacts.

(** C1: the forest made of one namespace with one [SimpleNamed], which
    has no dependency at all, is resolved to the empty mapping: its only
    entity gets no name. *)
Theorem simple_forest_unnamed :
  dependencies simple_forest 0 = []
  ∧ reachable simple_forest [0] 0
  ∧ 0 ∈ members simple_forest 0
  ∧ assignNames simple_forest 2 1 [0] = Returned ∅
  ∧ (∅ : gmap NamedRef string) !! 0 = None.
Proof.
  split_and!; try reflexivity.
  - apply reachable_root. set_solver.
  - set_solver.
Qed.

(** The first iteration on [eligibility_forest]: namespace 1 passes the
    filter of step 1 although the namespace it forbids is not fully
    resolved, and namespace 0, which is eligible by the rule, is not
    chosen: no namespace is, and the run returns without naming. *)
Example eligibility_forest_run :
  NamingContext_new eligibility_forest 2 [0; 1] = Some (fresh [0; 1])
  ∧ assignFixed eligibility_forest (fresh [0; 1]) = (Returned (), fresh [0; 1])
  ∧ 1 ∈ unfinishedNamespaces eligibility_forest (fresh [0; 1])
  ∧ 0 ∈ forbidden (ns_at eligibility_forest 1)
  ∧ ¬ fully_resolved eligibility_forest (fresh [0; 1]) 0
  ∧ eligible eligibility_forest (fresh [0; 1]) 0
  ∧ readyNamespace eligibility_forest (fresh [0; 1]) = None
  ∧ assignNames eligibility_forest 2 1 [0; 1] = Returned ∅.
Proof.
  split_and!; try reflexivity.
  - set_solver.
  - set_solver.
  - intros Hfull. destruct (Hfull 0) as [nm Hnm]; [set_solver|].
    simpl in Hnm. by rewrite lookup_empty in Hnm.
  - split.
    + intros f Hf. by apply elem_of_nil in Hf.
    + exists 0. split; [set_solver|]. split; [apply lookup_empty|].
      intros d Hd. by apply elem_of_nil in Hd.
Qed.

(** C9: the run on a namespace with one [FixedNamed] throws a [TypeError]
    in the pass over the fixed names, after the first call of [assign] has
    recorded the literal; no mapping is returned.  With two [FixedNamed]s
    the pass stops in the same way at the first, and the second is never
    given its literal. *)
Theorem fixed_forest_throws :
  isFixed fixed_forest 0 = true
  ∧ proposeName fixed_forest 0 None = Returned "Type"
  ∧ (assign fixed_forest 0 "Type" (fresh [0])).1 = Threw TypeError
  ∧ names (assign fixed_forest 0 "Type" (fresh [0])).2 !! 0 = Some "Type"
  ∧ assignNames fixed_forest 2 1 [0] = Threw TypeError
  ∧ fixedNames keywords_forest (fresh [0]) = [0; 1]
  ∧ (assignFixed keywords_forest (fresh [0])).1 = Threw TypeError
  ∧ names (assignFixed keywords_forest (fresh [0])).2 !! 0 = Some "Type"
  ∧ names (assignFixed keywords_forest (fresh [0])).2 !! 1 = None
  ∧ assignNames keywords_forest 2 1 [0] = Threw TypeError.
Proof. split_and!; reflexivity. Qed.


(** ** What step 3 checks *)

(** [keyword_named] is the context that the pass over the fixed names
    leaves on [keyword_clash_forest]: the keyword holds its literal and
    the index is empty. *)
Lemma keyword_named_reached (f : NamingFunction.t) :
  NamingContext_new (keyword_clash_forest f) 2 [1; 0] = Some (fresh [1; 0])
  ∧ (assignFixed (keyword_clash_forest f) (fresh [1; 0])).2 = keyword_named.
Proof. split; reflexivity. Qed.

(** There, lines 289-294 compute for the namespace that forbids the
    keywords the set that holds ["Type"], and step 2 forms one set, made
    of the member that proposes ["Type"]. *)
Lemma keyword_forbidden (f : NamingFunction.t) :
  forbiddenNames (keyword_clash_forest f) keyword_named 1 = {[ "Type" ]}.
Proof. vm_compute. reflexivity. Qed.

Lemma keyword_ready (f : NamingFunction.t) :
  List.filter (isReadyToBeNamed (keyword_clash_forest f) keyword_named)
    (members (keyword_clash_forest f) 1) = [1]
  ∧ proposeName (keyword_clash_forest f) 1 (Some (names keyword_named))
    = Returned "Type".
Proof. split; reflexivity. Qed.

(** A call of [assign] ends with one of its two messages, with a
    [TypeError] or with a return.  It never ends with the message of
    step 3, and neither does a loop of such calls. *)
Lemma assign_outcome (h : Heap) (named : NamedRef) (nm : string)
    (ctx : NamingContext) :
  (assign h named nm ctx).1 ≠ Threw wrongNumberOfNames.
Proof. unfold assign. repeat case_match; simpl; discriminate. Qed.

Lemma forEach_assign_outcome (h : Heap) (l : list (NamedRef * string)) :
  ∀ ctx : NamingContext,
    (forEach (λ '(named, nm), assign h named nm) l ctx).1
    ≠ Threw wrongNumberOfNames.
Proof.
  induction l as [|[named nm] l IH]; intros ctx; [discriminate|].
  cbn [forEach]. unfold bind.
  pose proof (assign_outcome h named nm ctx) as Hone.
  destruct (assign h named nm ctx) as [[[]|e|] ctx1]; simpl in *;
    [apply IH|done|discriminate].
Qed.


(** The forbidden name is the one recorded for the member, next to the
    keyword that holds it. *)
Example forbidden_name_recorded :
  names (nameSet (keyword_clash_forest echoNaming) (Some echoNaming)
           (forbiddenNames (keyword_clash_forest echoNaming) keyword_named 1)
           [1] "Type" keyword_named).2 !! 1 = Some "Type"
  ∧ names keyword_named !! 0 = Some "Type".
Proof. rewrite keyword_forbidden. split; reflexivity. Qed.

(** Steps 2 and 3 as a whole on that namespace: the counting naming
    function avoids the forbidden name, [echoNaming] does not and its
    name is recorded all the same.  (In both cases [assign] then fails
    on the empty index.) *)
Example keyword_clash_counting :
  names (nameNamespace (keyword_clash_forest counting) 1 keyword_named).2 !! 1
    = Some "Type_".
Proof. vm_compute. reflexivity. Qed.

Example keyword_clash_echo :
  (nameNamespace (keyword_clash_forest echoNaming) 1 keyword_named).1
    = Threw TypeError
  ∧ names (nameNamespace (keyword_clash_forest echoNaming) 1 keyword_named).2 !! 1
    = Some "Type".
Proof. split; vm_compute; reflexivity. Qed.



(** A naming function that returns no name is stopped by step 3. *)
Example silent_rejected :
  nameSet (keyword_clash_forest silentNaming) (Some silentNaming)
    (forbiddenNames (keyword_clash_forest silentNaming) keyword_named 1)
    [1] "Type" keyword_named
  = (Threw wrongNumberOfNames, keyword_named).
Proof. reflexivity. Qed.

(** ** Bounds and enumeration order *)

Lemma existsb_pointwise {A : Type} (f g : A → bool) (l : list A) :
  (∀ x, f x = g x) → existsb f l = existsb g l.
Proof.
  intros Hfg. induction l as [|x l IH]; [done|]. simpl. by rewrite Hfg, IH.
Qed.

Lemma forEach_pointwise {A : Type} (f g : A → M unit) (l : list A) :
  (∀ x ctx, f x ctx = g x ctx) → ∀ ctx, forEach f l ctx = forEach g l ctx.
Proof.
  intros Hfg. induction l as [|x l IH]; intros ctx; [done|].
  simpl. unfold bind. rewrite Hfg.
  destruct (g x ctx) as [[[]|e|] ctx1]; [|done..]. apply IH.
Qed.

Section SameForest.
Variables h h' : Heap.
Hypothesis Hsame : same_forest h h'.

Lemma same_children (ns : NsRef) : children h ns = children h' ns.
Proof. unfold children. by destruct (proj1 Hsame ns) as (_ & _ & -> & _). Qed.

Lemma same_members (ns : NsRef) : members h ns = members h' ns.
Proof. unfold members. by destruct (proj1 Hsame ns) as (_ & _ & _ & -> & _). Qed.

Lemma same_isFixed (n : NamedRef) : isFixed h n = isFixed h' n.
Proof. unfold isFixed, namingFunction. by rewrite (proj2 Hsame n). Qed.

Lemma same_proposeName (n : NamedRef) (nms : option (gmap NamedRef string)) :
  proposeName h n nms = proposeName h' n nms.
Proof. unfold proposeName. by rewrite (proj2 Hsame n). Qed.

Lemma same_allNamespacesRecursively (fuel : nat) (roots : list NsRef) :
  allNamespacesRecursively h fuel roots = allNamespacesRecursively h' fuel roots.
Proof.
  revert roots. induction fuel as [|fuel IH]; intros roots; [done|].
  simpl. f_equal. induction roots as [|root roots IHroots]; [done|].
  simpl. by rewrite same_children, IH, IHroots.
Qed.

(** The order in which a forbidden set enumerates its elements does not
    change what [has] answers. *)
Lemma same_isConflicting (ctx : NamingContext) (named : NamedRef)
    (proposed : string) :
  isConflicting h ctx named proposed = isConflicting h' ctx named proposed.
Proof.
  unfold isConflicting. destruct (namedsForName ctx !! proposed); [|done].
  rewrite !(proj2 Hsame _). apply existsb_pointwise. intros n.
  rewrite (proj2 Hsame n). f_equal. apply bool_decide_ext.
  destruct (proj1 Hsame (namespace (named_at h' named))) as (_ & _ & _ & _ & Hperm).
  by rewrite Hperm.
Qed.

Lemma same_assign (named : NamedRef) (nm : string) (ctx : NamingContext) :
  assign h named nm ctx = assign h' named nm ctx.
Proof. unfold assign. by rewrite same_isConflicting. Qed.

Lemma same_fixedNames (ctx : NamingContext) : fixedNames h ctx = fixedNames h' ctx.
Proof.
  unfold fixedNames. f_equal.
  induction (namespaces ctx) as [|ns nss IH]; [done|].
  simpl. rewrite IH, same_members. f_equal.
  apply filter_ext. intros n. apply same_isFixed.
Qed.

Lemma same_assignFixed (ctx : NamingContext) :
  assignFixed h ctx = assignFixed h' ctx.
Proof.
  unfold assignFixed, bind at 1 3, get_ctx. rewrite same_fixedNames.
  apply forEach_pointwise. intros n ctx1.
  unfold bind. rewrite same_proposeName.
  destruct (lift (proposeName h' n None) ctx1) as [[nm|e|] ctx2]; [|done..].
  apply same_assign.
Qed.
End SameForest.

(** Two runs on the same forest that both come to an end end the same
    way, with the same mapping when they return, whatever bounds they
    are given and in whatever order the forbidden sets enumerate their
    elements. *)
Lemma assignNames_deterministic (h h' : Heap) (depth depth' fuel fuel' : nat)
    (roots : list NsRef) :
  same_forest h h' →
  assignNames h depth fuel roots ≠ OutOfFuel →
  assignNames h' depth' fuel' roots ≠ OutOfFuel →
  assignNames h depth fuel roots = assignNames h' depth' fuel' roots.
Proof.
  intros Hsame. unfold assignNames, NamingContext_new.
  rewrite <-(same_allNamespacesRecursively h h' Hsame depth' roots).
  destruct (allNamespacesRecursively h depth roots) as [nss|] eqn:Hnss;
    [|done].
  destruct (allNamespacesRecursively h depth' roots) as [nss'|] eqn:Hnss';
    [|done].
  assert (nss' = nss) as ->.
  { apply (allNamespacesRecursively_mono h _ (depth `max` depth')) in Hnss;
      [|lia].
    apply (allNamespacesRecursively_mono h _ (depth `max` depth')) in Hnss';
      [|lia].
    congruence. }
  simpl. unfold bind. rewrite <-(same_assignFixed h h' Hsame).
  destruct (assignFixed h _) as [[[]|e|] ctx']; [|done..].
  destruct fuel as [|fuel]; [done|]. destruct fuel' as [|fuel']; [done|].
  by rewrite !assignNames_loop_S.
Qed.

Example assignNames_deterministic_example :
  same_forest (forest_order [0; 1]) (forest_order [1; 0])
  ∧ assignNames (forest_order [0; 1]) 3 1 [2] ≠ OutOfFuel
  ∧ assignNames (forest_order [1; 0]) 5 2 [2] ≠ OutOfFuel
  ∧ assignNames (forest_order [0; 1]) 3 1 [2]
    = assignNames (forest_order [1; 0]) 5 2 [2].
Proof.
  assert (same_forest (forest_order [0; 1]) (forest_order [1; 0])) as Hsame.
  { split; [|done]. intros ns. split_and!; try by destruct ns as [|[|[|[|?]]]].
    destruct ns as [|[|[|ns]]]; [reflexivity..|apply Permutation_swap|reflexivity]. }
  split; [done|]. split; [done|]. split; [done|].
  apply (assignNames_deterministic _ _ 3 5 1 2 [2]); done.
Qed.

(** * Further properties *)

(** ** The counting naming function *)

Section CountingMore.
Import CountingNamingFunction.

Lemma string_app_nil_r (s : string) : s +:+ "" = s.
Proof.
  induction s as [|a s IH]; [done|]. rewrite string_app_cons. by f_equal.
Qed.

Lemma pretty_N_go_length (x : N) (s : string) :
  String.length s ≤ String.length (pretty_N_go x s).
Proof.
  revert s. induction (N.lt_wf_0 x) as [x _ IH]; intros s.
  destruct (decide (x = 0)%N) as [->|Hx].
  - by rewrite pretty_N_go_0.
  - rewrite pretty_N_go_step by lia.
    etrans; [|apply IH; apply N.div_lt; lia]. simpl. lia.
Qed.

(** The numeral of a number is not empty. *)
Lemma pretty_nat_nonempty (i : nat) : pretty i ≠ "".
Proof.
  unfold pretty, pretty_nat, pretty, pretty_N.
  case_decide as Hz; [discriminate|].
  rewrite pretty_N_go_step by lia. intros Hempty.
  pose proof (pretty_N_go_length (N.of_nat i `div` 10)
                (String (pretty_N_char (N.of_nat i `mod` 10)) "")) as Hlen.
  rewrite Hempty in Hlen. simpl in Hlen. lia.
Qed.

Lemma batch_nonempty (p : string) (k count : nat) :
  1 ≤ count → ∃ x, x ∈ batch p k count.
Proof.
  intros Hc. unfold batch. case_decide.
  - eexists. apply list_elem_of_singleton. done.
  - destruct count as [|count]; [lia|]. eexists. simpl. left.
Qed.

(** The method returns the batch of the first filler that is free, and
    that filler is no longer than the number of forbidden names. *)
Lemma name_first_free (p : string) (F : gset string) (count k : nat) :
  1 ≤ count →
  blocked F (batch p k count) = false →
  (∀ i, i < k → blocked F (batch p i count) = true) →
  name p F count = Returned (batch p k count) ∧ k ≤ size F.
Proof.
  intros Hc Hfree Hbusy.
  destruct (free_filler (size F) F p count 0) as (j & Hj & Hjfree & Hjbusy);
    [done|]. simpl in Hjfree, Hjbusy.
  assert (j = k) as ->.
  { destruct (lt_eq_lt_dec j k) as [[Hlt| ->]|Hlt]; [|done|].
    - rewrite Hbusy in Hjfree by done. discriminate.
    - rewrite Hjbusy in Hfree by done. discriminate. }
  split; [|done]. unfold name, name_fuel. rewrite decide_False by lia.
  change "" with (filler 0). by rewrite (name_loop_stops _ _ _ k); [|lia|..].
Qed.

Lemma name_returns (p : string) (F : gset string) (count : nat) :
  1 ≤ count →
  ∃ k, k ≤ size F
       ∧ name p F count = Returned (batch p k count)
       ∧ blocked F (batch p k count) = false
       ∧ ∀ i, i < k → blocked F (batch p i count) = true.
Proof.
  intros Hc.
  destruct (free_filler (size F) F p count 0) as (k & Hk & Hfree & Hbusy);
    [done|]. simpl in Hfree, Hbusy. exists k.
  destruct (name_first_free p F count k) as [Hname _]; done.
Qed.

(** What the method returns tells which filler it used. *)
Lemma name_Returned_batch (p : string) (F : gset string) (count k : nat) :
  1 ≤ count → name p F count = Returned (batch p k count) →
  blocked F (batch p k count) = false
  ∧ ∀ i, i < k → blocked F (batch p i count) = true.
Proof.
  intros Hc Hname.
  destruct (name_returns p F count Hc) as (j & _ & Hj & Hfree & Hbusy).
  rewrite Hname in Hj. injection Hj as Hj.
  destruct (batch_nonempty p k count Hc) as [x Hx].
  assert (k = j) as ->; [|done].
  apply (batch_disjoint p k j count x); [done|]. by rewrite <-Hj.
Qed.

(** X1: a candidate that is not forbidden is returned as it is when one
    name is asked for. *)
Theorem counting_keeps_free_candidate (proposedName : string)
    (forbiddenNames : gset string) :
  proposedName ∉ forbiddenNames →
  name proposedName forbiddenNames 1 = Returned [proposedName].
Proof.
  intros Hfree.
  destruct (name_first_free proposedName forbiddenNames 1 0) as [-> _];
    [lia| |intros; lia|].
  - apply blocked_false. unfold batch. simpl.
    intros x ->%list_elem_of_singleton. by rewrite string_app_nil_r.
  - unfold batch. simpl. by rewrite string_app_nil_r.
Qed.

Lemma counting_keeps_free_candidate_witness :
  ("Foo" ∉ ({[ "Bar" ]} : gset string))
  ∧ name "Foo" {[ "Bar" ]} 1 = Returned ["Foo"].
Proof.
  assert ("Foo" ∉ ({[ "Bar" ]} : gset string)) as Hfree.
  { intros [=]%elem_of_singleton. }
  split; [done|]. by apply (counting_keeps_free_candidate "Foo" {[ "Bar" ]}).
Defined.

(** X2: when several names are asked for and none of the candidate
    followed by the numbers [0] to [count - 1] is forbidden, these are the
    names returned, in this order and without underscores. *)
Theorem counting_numbers_free_candidate (proposedName : string)
    (forbiddenNames : gset string) (count : nat) :
  2 ≤ count →
  (∀ i : nat, i < count → proposedName +:+ pretty i ∉ forbiddenNames) →
  name proposedName forbiddenNames count
    = Returned (map (λ i : nat, proposedName +:+ pretty i) (seq 0 count)).
Proof.
  intros Hc Hfree.
  assert (batch proposedName 0 count
          = map (λ i : nat, proposedName +:+ pretty i) (seq 0 count)) as Hb.
  { unfold batch. rewrite decide_False by lia. reflexivity. }
  destruct (name_first_free proposedName forbiddenNames count 0) as [-> _];
    [lia| |intros; lia|by rewrite Hb].
  apply blocked_false. rewrite Hb.
  intros x (i & -> & Hi)%list_elem_of_fmap. apply Hfree.
  apply elem_of_seq in Hi. lia.
Qed.

Lemma counting_numbers_free_candidate_witness :
  2 ≤ 2
  ∧ (∀ i : nat, i < 2 → "Foo" +:+ pretty i ∉ ({[ "Foo" ]} : gset string))
  ∧ name "Foo" {[ "Foo" ]} 2 = Returned ["Foo0"; "Foo1"].
Proof.
  assert (∀ i : nat, i < 2 → "Foo" +:+ pretty i ∉ ({[ "Foo" ]} : gset string))
    as Hfree.
  { intros i Hi Hin%elem_of_singleton.
    destruct i as [|[|i]]; [discriminate Hin..|lia]. }
  split; [lia|]. split; [done|].
  apply (counting_numbers_free_candidate "Foo" {[ "Foo" ]} 2); [lia|done].
Defined.

(** X3: the method never appends more underscores than there are
    forbidden names. *)
Theorem counting_filler_bounded (proposedName : string)
    (forbiddenNames : gset string) (numberOfNames : nat) :
  1 ≤ numberOfNames →
  ∃ k, k ≤ size forbiddenNames
       ∧ name proposedName forbiddenNames numberOfNames
         = Returned (batch proposedName k numberOfNames).
Proof.
  intros Hc.
  destruct (name_returns proposedName forbiddenNames numberOfNames Hc)
    as (k & Hk & Hname & _).
  eauto.
Qed.

Lemma counting_filler_bounded_witness :
  1 ≤ 1
  ∧ ∃ k, k ≤ size ({[ "Type"; "Type_" ]} : gset string)
         ∧ name "Type" {[ "Type"; "Type_" ]} 1 = Returned (batch "Type" k 1).
Proof.
  split; [lia|].
  apply (counting_filler_bounded "Type" {[ "Type"; "Type_" ]} 1). lia.
Defined.

(** X4: forbidding more names never shortens the filler. *)
Theorem counting_filler_monotone (proposedName : string)
    (F F' : gset string) (numberOfNames k k' : nat) :
  1 ≤ numberOfNames → F ⊆ F' →
  name proposedName F numberOfNames
    = Returned (batch proposedName k numberOfNames) →
  name proposedName F' numberOfNames
    = Returned (batch proposedName k' numberOfNames) →
  k ≤ k'.
Proof.
  intros Hc Hsub [_ Hbusy]%name_Returned_batch [Hfree' _]%name_Returned_batch;
    [|done..].
  destruct (decide (k ≤ k')) as [|Hgt]; [done|].
  specialize (Hbusy k' ltac:(lia)).
  apply blocked_true in Hbusy as (x & Hx & HxF).
  rewrite blocked_false in Hfree'. destruct (Hfree' x Hx). by apply Hsub.
Qed.

Lemma counting_filler_monotone_witness :
  1 ≤ 1 ∧ ({[ "Type" ]} : gset string) ⊆ {[ "Type"; "Type_" ]}
  ∧ name "Type" {[ "Type" ]} 1 = Returned (batch "Type" 1 1)
  ∧ name "Type" {[ "Type"; "Type_" ]} 1 = Returned (batch "Type" 2 1)
  ∧ 1 ≤ 2.
Proof.
  assert (({[ "Type" ]} : gset string) ⊆ {[ "Type"; "Type_" ]}) as Hsub.
  { set_solver. }
  split; [lia|]. split; [done|]. split; [vm_compute; reflexivity|].
  split; [vm_compute; reflexivity|].
  apply (counting_filler_monotone "Type" {[ "Type" ]} {[ "Type"; "Type_" ]} 1 1 2);
    [lia|done|vm_compute; reflexivity..].
Defined.

(** X5: every name returned starts with the candidate; when several names
    are asked for, none of them is the candidate itself. *)
Theorem counting_names_extend_candidate (proposedName : string)
    (forbiddenNames : gset string) (numberOfNames : nat) (nms : list string) :
  name proposedName forbiddenNames numberOfNames = Returned nms →
  ∀ x, x ∈ nms →
    ∃ suffix, x = proposedName +:+ suffix
              ∧ (2 ≤ numberOfNames → suffix ≠ "").
Proof.
  intros Hname x Hx.
  assert (1 ≤ numberOfNames) as Hc.
  { destruct numberOfNames; [discriminate Hname|lia]. }
  destruct (name_returns proposedName forbiddenNames numberOfNames Hc)
    as (k & _ & Hk & _).
  rewrite Hname in Hk. injection Hk as ->.
  unfold batch in Hx. case_decide as Hone.
  - apply list_elem_of_singleton in Hx as ->. exists (filler k).
    split; [done|lia].
  - apply list_elem_of_fmap in Hx as (i & -> & _).
    exists (filler k +:+ pretty i). split; [done|]. intros _ Hempty.
    assert (String.length (filler k +:+ pretty i) = 0) as Hlen
      by (by rewrite Hempty).
    destruct (filler k) as [|a s]; [|discriminate Hlen].
    change ("" +:+ pretty i) with (pretty i) in Hempty.
    by apply pretty_nat_nonempty in Hempty.
Qed.

Lemma counting_names_extend_candidate_witness :
  name "Foo" {[ "Foo0" ]} 2 = Returned ["Foo_0"; "Foo_1"]
  ∧ ∀ x, x ∈ ["Foo_0"; "Foo_1"] →
      ∃ suffix, x = "Foo" +:+ suffix ∧ (2 ≤ 2 → suffix ≠ "").
Proof.
  split; [vm_compute; reflexivity|].
  apply (counting_names_extend_candidate "Foo" {[ "Foo0" ]} 2).
  vm_compute. reflexivity.
Defined.

Lemma batch_prefix (p : string) (k count : nat) (x : string) :
  x ∈ batch p k count → ∃ suffix, x = p +:+ suffix.
Proof.
  unfold batch. case_decide.
  - intros ->%list_elem_of_singleton. eauto.
  - intros (i & -> & _)%list_elem_of_fmap. eauto.
Qed.

(** X6: forbidden names that do not start with the candidate have no
    effect on the names returned. *)
Theorem counting_ignores_unrelated (proposedName : string)
    (F G : gset string) (numberOfNames : nat) :
  (∀ x suffix, x ∈ G → x ≠ proposedName +:+ suffix) →
  name proposedName (F ∪ G) numberOfNames = name proposedName F numberOfNames.
Proof.
  intros Hother.
  destruct numberOfNames as [|n]; [done|].
  destruct (name_returns proposedName F (S n)) as (k & _ & -> & Hfree & Hbusy);
    [lia|].
  assert (∀ j, blocked (F ∪ G) (batch proposedName j (S n))
               = blocked F (batch proposedName j (S n))) as Hsame.
  { intros j. apply eq_true_iff_eq. rewrite !blocked_true.
    split; intros (x & Hx & HxF); exists x; (split; [done|]).
    - apply base.elem_of_union in HxF as [?|HxG]; [done|].
      destruct (batch_prefix _ _ _ _ Hx) as [suffix ->].
      by destruct (Hother _ suffix HxG).
    - apply base.elem_of_union. by left. }
  destruct (name_first_free proposedName (F ∪ G) (S n) k) as [-> _];
    [lia|by rewrite Hsame|intros i Hi; rewrite Hsame; by apply Hbusy|done].
Qed.

Lemma counting_ignores_unrelated_witness :
  (∀ x suffix, x ∈ ({[ "Bar" ]} : gset string) → x ≠ "Foo" +:+ suffix)
  ∧ name "Foo" ({[ "Foo" ]} ∪ {[ "Bar" ]}) 1 = name "Foo" {[ "Foo" ]} 1.
Proof.
  assert (∀ x suffix, x ∈ ({[ "Bar" ]} : gset string) → x ≠ "Foo" +:+ suffix)
    as Hother.
  { intros x suffix ->%elem_of_singleton. discriminate. }
  split; [done|].
  by apply (counting_ignores_unrelated "Foo" {[ "Foo" ]} {[ "Bar" ]} 1).
Defined.
End CountingMore.

(** ** More about the naming context *)

Section ContextMore.
Variable h : Heap.

(** A name that is recorded stays as it is through a call of [assign]. *)
Lemma assign_keeps_name (named : NamedRef) (nm : string) (ctx : NamingContext)
    (n : NamedRef) (s : string) :
  names ctx !! n = Some s → names (assign h named nm ctx).2 !! n = Some s.
Proof.
  intros Hn. unfold assign. destruct (has_name ctx named) eqn:Hhas; [done|].
  apply has_name_false in Hhas.
  assert (n ≠ named) as Hne by congruence.
  repeat case_match; simpl; try done; by rewrite lookup_insert_ne.
Qed.

Lemma assigns_keep_name (calls : list (NamedRef * string)) :
  ∀ (ctx : NamingContext) (n : NamedRef) (s : string),
    names ctx !! n = Some s → names (assigns h calls ctx).2 !! n = Some s.
Proof.
  induction calls as [|[named nm] calls IH]; intros ctx n s Hn; [done|].
  simpl. pose proof (assign_keeps_name named nm ctx n s Hn) as Hone.
  destruct (assign h named nm ctx) as [o ctx'].
  specialize (IH ctx' n s Hone). by destruct (assigns h calls ctx').
Qed.
End ContextMore.

(** X7: once a [Named] has been passed to [assign] and the call was not
    rejected as a conflict, every later call of [assign] for it, whatever
    calls of [assign] were made in between, throws "Named assigned twice"
    and leaves the context as it is; this holds also when the first call
    ended with a throw. *)
Theorem assign_second_rejected (h : Heap) (named : NamedRef) (nm nm' : string)
    (calls : list (NamedRef * string)) (ctx : NamingContext) :
  (assign h named nm ctx).1 ≠ Threw assignedNameConflicts →
  assign h named nm' (assigns h calls (assign h named nm ctx).2).2
    = (Threw (ThrowString "Named assigned twice"),
       (assigns h calls (assign h named nm ctx).2).2).
Proof.
  intros Hfirst.
  assert (∃ s, names (assign h named nm ctx).2 !! named = Some s)
    as [s Hnamed].
  { revert Hfirst. unfold assign.
    destruct (has_name ctx named) eqn:Hhas;
      [intros _; by apply has_name_true in Hhas|].
    destruct (isConflicting h ctx named nm); [done|]. intros _.
    exists nm. repeat case_match; simpl; apply lookup_insert_eq. }
  apply (assigns_keep_name h calls) in Hnamed.
  assert (has_name (assigns h calls (assign h named nm ctx).2).2 named = true)
    as Hhas by (apply has_name_true; eauto).
  unfold assign at 1. by rewrite Hhas.
Qed.

Lemma assign_second_rejected_witness :
  (assign keywords_forest 0 "Type" (fresh [0])).1 ≠ Threw assignedNameConflicts
  ∧ assign keywords_forest 0 "Other"
      (assigns keywords_forest [(1, "Converter"); (0, "Again")]
         (assign keywords_forest 0 "Type" (fresh [0])).2).2
    = (Threw (ThrowString "Named assigned twice"),
       (assigns keywords_forest [(1, "Converter"); (0, "Again")]
          (assign keywords_forest 0 "Type" (fresh [0])).2).2).
Proof.
  assert ((assign keywords_forest 0 "Type" (fresh [0])).1
          ≠ Threw assignedNameConflicts) as Hfirst by discriminate.
  split; [done|].
  by apply (assign_second_rejected keywords_forest 0 "Type" "Other"
              [(1, "Converter"); (0, "Again")] (fresh [0])).
Defined.

(** X8: a name that is recorded in the context is never changed nor
    removed, whatever calls of [assign] follow. *)
Theorem assigned_name_is_final (h : Heap) (calls : list (NamedRef * string))
    (ctx : NamingContext) (n : NamedRef) (s : string) :
  names ctx !! n = Some s → names (assigns h calls ctx).2 !! n = Some s.
Proof. apply assigns_keep_name. Qed.

Lemma assigned_name_is_final_witness :
  names (assign clash_forest 0 "Type" (fresh [0])).2 !! 0 = Some "Type"
  ∧ names (assigns clash_forest [(0, "Other"); (1, "Type")]
             (assign clash_forest 0 "Type" (fresh [0])).2).2 !! 0
    = Some "Type".
Proof.
  split; [reflexivity|].
  apply (assigned_name_is_final clash_forest [(0, "Other"); (1, "Type")]).
  reflexivity.
Defined.

(** X9: the name that a [Named] proposes depends on the names of its
    dependencies only: two mappings that agree on them give the same
    proposal. *)
Theorem proposeName_reads_dependencies (h : Heap) (n : NamedRef)
    (nms nms' : gmap NamedRef string) :
  (∀ d, d ∈ dependencies h n → nms !! d = nms' !! d) →
  proposeName h n (Some nms) = proposeName h n (Some nms').
Proof.
  unfold dependencies, proposeName.
  destruct (kind (named_at h n)) as [|f p|f deps g]; [done..|].
  intros Hagree. do 2 f_equal. apply map_ext_in. intros d Hd.
  apply Hagree. by apply list_elem_of_In.
Qed.

Lemma proposeName_reads_dependencies_witness :
  (∀ d, d ∈ dependencies (forest_order []) 1 →
        ({[ 0 := "TopLevel" ]} : gmap NamedRef string) !! d
        = ({[ 0 := "TopLevel"; 1 := "Other" ]} : gmap NamedRef string) !! d)
  ∧ proposeName (forest_order []) 1 (Some {[ 0 := "TopLevel" ]})
    = proposeName (forest_order []) 1
        (Some {[ 0 := "TopLevel"; 1 := "Other" ]}).
Proof.
  assert (∀ d, d ∈ dependencies (forest_order []) 1 →
            ({[ 0 := "TopLevel" ]} : gmap NamedRef string) !! d
            = ({[ 0 := "TopLevel"; 1 := "Other" ]} : gmap NamedRef string) !! d)
    as Hagree.
  { intros d ->%list_elem_of_singleton. reflexivity. }
  split; [done|].
  by apply (proposeName_reads_dependencies (forest_order []) 1).
Defined.

(** X10: when all the dependencies of a [Named] have a name, its proposal
    stays the same through any further calls of [assign]. *)
Theorem proposal_is_stable (h : Heap) (n : NamedRef)
    (calls : list (NamedRef * string)) (ctx : NamingContext) :
  (∀ d, d ∈ dependencies h n → is_Some (names ctx !! d)) →
  proposeName h n (Some (names (assigns h calls ctx).2))
    = proposeName h n (Some (names ctx)).
Proof.
  unfold dependencies, proposeName.
  destruct (kind (named_at h n)) as [|f p|f deps g]; [done..|].
  intros Hnamed. do 2 f_equal. apply map_ext_in. intros d Hd.
  destruct (Hnamed d) as [s Hs]; [by apply list_elem_of_In|].
  rewrite Hs. by apply assigns_keep_name.
Qed.

Lemma proposal_is_stable_witness :
  (∀ d, d ∈ dependencies (forest_order []) 1 →
        is_Some (names (assign (forest_order []) 0 "TopLevel" (fresh [2; 3])).2
                   !! d))
  ∧ proposeName (forest_order []) 1
      (Some (names (assigns (forest_order []) [(1, "TopLevelValue")]
                      (assign (forest_order []) 0 "TopLevel" (fresh [2; 3])).2).2))
    = proposeName (forest_order []) 1
        (Some (names (assign (forest_order []) 0 "TopLevel" (fresh [2; 3])).2)).
Proof.
  assert (∀ d, d ∈ dependencies (forest_order []) 1 →
            is_Some (names (assign (forest_order []) 0 "TopLevel"
                              (fresh [2; 3])).2 !! d)) as Hnamed.
  { intros d ->%list_elem_of_singleton. by eexists. }
  split; [done|].
  by apply (proposal_is_stable (forest_order []) 1 [(1, "TopLevelValue")]).
Defined.

(** [isConflicting] answers [true] exactly when the index lists,
    under the proposed name, a [Named] of the same namespace or of a
    namespace that the namespace of the [Named] to be assigned forbids.
    The forbidden set of the other namespace plays no part. *)
Lemma isConflicting_spec (h : Heap) (ctx : NamingContext) (named : NamedRef)
    (proposed : string) :
  isConflicting h ctx named proposed = true ↔
  ∃ nameds other,
    namedsForName ctx !! proposed = Some nameds ∧ other ∈ nameds
    ∧ (namespace (named_at h named) = namespace (named_at h other)
       ∨ namespace (named_at h other)
           ∈ forbidden (ns_at h (namespace (named_at h named)))).
Proof.
  unfold isConflicting.
  destruct (namedsForName ctx !! proposed) as [nameds|].
  - rewrite existsb_exists. split.
    + intros (other & Hin & Hc). exists nameds, other. split; [done|].
      split; [by apply elem_of_elements, list_elem_of_In|].
      apply orb_true_iff in Hc as [Hc|Hc].
      * left. by apply bool_decide_eq_true in Hc.
      * right. by apply bool_decide_eq_true in Hc.
    + intros (nameds' & other & [= <-] & Hin & Hc). exists other.
      split; [by apply list_elem_of_In, elem_of_elements|].
      apply orb_true_iff. destruct Hc as [Hc|Hc]; [left|right];
        by apply bool_decide_eq_true.
  - split; [done|]. by intros (? & ? & ? & _).
Qed.

(** ** More about the driver *)

Section UnionMore.
Context {A : Type} `{EqDecision A}.

Lemma NoDup_foldl_add (l s : list A) : NoDup s → NoDup (foldl Immutable.add s l).
Proof.
  revert s. induction l as [|x l IH]; intros s Hs; [done|].
  simpl. apply IH. unfold Immutable.add. case_decide; [done|].
  apply NoDup_app. split_and!; [done| |apply NoDup_singleton].
  intros y Hy ->%list_elem_of_singleton. done.
Qed.

Lemma foldl_add_extends (l s : list A) :
  ∃ tail, foldl Immutable.add s l = s ++ tail.
Proof.
  revert s. induction l as [|x l IH]; intros s; simpl.
  - exists []. by rewrite app_nil_r.
  - destruct (IH (Immutable.add s x)) as [tail ->].
    unfold Immutable.add. case_decide; [eauto|].
    rewrite <-app_assoc. eauto.
Qed.

Lemma NoDup_union (iters : list (list A)) (s : list A) :
  NoDup s → NoDup (Immutable.union s iters).
Proof.
  unfold Immutable.union. revert s.
  induction iters as [|it iters IH]; intros s Hs; [done|].
  simpl. by apply IH, NoDup_foldl_add.
Qed.

Lemma union_extends (iters : list (list A)) (s : list A) :
  ∃ tail, Immutable.union s iters = s ++ tail.
Proof.
  unfold Immutable.union. revert s.
  induction iters as [|it iters IH]; intros s; simpl.
  - exists []. by rewrite app_nil_r.
  - destruct (IH (foldl Immutable.add s it)) as [tail ->].
    destruct (foldl_add_extends it s) as [tail' ->].
    rewrite <-app_assoc. eauto.
Qed.

Lemma elem_of_orderedSetUnion (sets : list (list A)) (x : A) :
  x ∈ orderedSetUnion sets ↔ ∃ s, s ∈ sets ∧ x ∈ s.
Proof.
  unfold orderedSetUnion. destruct sets as [|s [|s' rest]].
  - split; [by intros ?%elem_of_nil|]. by intros (s & ?%elem_of_nil & _).
  - split.
    + intros Hx. exists s. split; [left|done].
    + by intros (s' & ->%list_elem_of_singleton & Hx).
  - rewrite elem_of_union. split.
    + intros [Hx|(it & Hit & Hx)].
      * exists s. split; [left|done].
      * exists it. split; [by right|done].
    + intros (it & [->|Hit]%elem_of_cons & Hx); eauto.
Qed.
End UnionMore.

(** X11: [orderedSetUnion] of ordered sets is an ordered set (it has no
    repeated element) that holds exactly the elements of the sets, and
    starts with the first set in its order. *)
Theorem orderedSetUnion_spec {A : Type} `{EqDecision A} (sets : list (list A)) :
  Forall NoDup sets →
  NoDup (orderedSetUnion sets)
  ∧ (∀ x, x ∈ orderedSetUnion sets ↔ ∃ s, s ∈ sets ∧ x ∈ s)
  ∧ (∀ s rest, sets = s :: rest → ∃ tail, orderedSetUnion sets = s ++ tail).
Proof.
  intros Hsets. split_and!.
  - unfold orderedSetUnion. destruct Hsets as [|s sets Hs Hsets];
      [apply NoDup_nil_2|].
    destruct sets; [done|]. by apply NoDup_union.
  - apply elem_of_orderedSetUnion.
  - intros s rest ->. unfold orderedSetUnion. destruct rest as [|s' rest].
    + exists []. by rewrite app_nil_r.
    + apply union_extends.
Qed.

Lemma orderedSetUnion_spec_witness :
  Forall NoDup [[1; 2]; [2; 3]; [1; 4]]
  ∧ NoDup (orderedSetUnion [[1; 2]; [2; 3]; [1; 4]])
  ∧ (∀ x, x ∈ orderedSetUnion [[1; 2]; [2; 3]; [1; 4]]
          ↔ ∃ s, s ∈ [[1; 2]; [2; 3]; [1; 4]] ∧ x ∈ s)
  ∧ (∀ s rest, [[1; 2]; [2; 3]; [1; 4]] = s :: rest →
       ∃ tail, orderedSetUnion [[1; 2]; [2; 3]; [1; 4]] = s ++ tail).
Proof.
  assert (Forall NoDup [[1; 2]; [2; 3]; [1; 4]]) as Hsets.
  { repeat constructor; rewrite ?elem_of_cons, ?elem_of_nil; lia. }
  split; [done|]. by apply (orderedSetUnion_spec [[1; 2]; [2; 3]; [1; 4]]).
Defined.

Example orderedSetUnion_order :
  orderedSetUnion [[1; 2]; [2; 3]; [1; 4]] = [1; 2; 3; 4].
Proof. reflexivity. Qed.

(** X12: the set that lines 289-294 compute for the chosen namespace
    holds exactly what [ctx.names.get] answers for the members of the
    namespaces that it forbids: the name of every such member that has
    one, and [undefined] as soon as one of them has none.  The strings
    of that set, which are what a naming function can find in it, are
    the names recorded for those members. *)
Theorem forbiddenNames_spec (h : Heap) (ctx : NamingContext)
    (readyNamespace : NsRef) :
  (∀ o : option string,
     o ∈ forbiddenNameSet h ctx readyNamespace ↔
     ∃ f n, f ∈ forbidden (ns_at h readyNamespace) ∧ n ∈ members h f
            ∧ names ctx !! n = o)
  ∧ (∀ s : string,
       s ∈ forbiddenNames h ctx readyNamespace ↔
       Some s ∈ forbiddenNameSet h ctx readyNamespace).
Proof.
  split.
  - intros o. unfold forbiddenNameSet.
    rewrite elem_of_list_to_set, list_elem_of_fmap. split.
    + intros (n & Ho & Hn).
      apply elem_of_orderedSetUnion in Hn as (ms & Hms & Hn).
      rewrite elem_of_toOrderedSet in Hms.
      apply list_elem_of_fmap in Hms as (f & -> & Hf). eauto.
    + intros (f & n & Hf & Hn & Ho). exists n. split; [done|].
      apply elem_of_orderedSetUnion. exists (members h f). split; [|done].
      apply elem_of_toOrderedSet, list_elem_of_fmap. eauto.
  - intros s. unfold forbiddenNames. rewrite elem_of_set_omap. split.
    + intros (o & Ho & Hid). simpl in Hid. by subst o.
    + intros Hs. by exists (Some s).
Qed.

(** An unnamed member of a forbidden namespace puts [undefined] into
    the set, next to the names of the others. *)
Example forbiddenNameSet_undefined :
  forbiddenNameSet keywords_forest
    {| names := {[ 0 := "Type" ]}; namedsForName := ∅; namespaces := [0] |} 0
  = ∅
  ∧ forbiddenNameSet (keyword_clash_forest counting) keyword_named 1
    = {[ Some "Type" ]}
  ∧ forbiddenNameSet (keyword_clash_forest counting) (fresh [1; 0]) 1
    = {[ None ]}.
Proof. split_and!; vm_compute; reflexivity. Qed.

(** X13: for every context, step 1 of the loop finds no namespace, and
    the loop returns the names recorded so far in its first iteration and
    leaves the context as it is: it never calls a naming function. *)
Theorem loop_names_nothing (h : Heap) (fuel : nat) (ctx : NamingContext) :
  readyNamespace h ctx = None
  ∧ assignNames_loop h (S fuel) ctx = (Returned (names ctx), ctx).
Proof. split; [apply readyNamespace_None|apply assignNames_loop_S]. Qed.

(** The pass over the fixed names on a new context. *)
Lemma assignFixed_on_fresh (h : Heap) (nss : list NsRef) :
  match fixedNames h (fresh nss) with
  | [] => assignFixed h (fresh nss) = (Returned (), fresh nss)
  | n :: _ =>
      assignFixed h (fresh nss)
      = (Threw TypeError,
         {| names := {[ n := name (named_at h n) ]};
            namedsForName := ∅; namespaces := nss |})
  end.
Proof.
  unfold assignFixed, bind at 1, get_ctx.
  destruct (fixedNames h (fresh nss)) as [|n l] eqn:Hl; [done|].
  assert (isFixed h n = true) as Hfix.
  { assert (n ∈ fixedNames h (fresh nss)) as Hin by (rewrite Hl; left).
    by apply elem_of_fixedNames in Hin as (_ & _ & _ & ?). }
  unfold bind, lift. rewrite Hl. cbn [forEach]. unfold bind.
  rewrite proposeName_fixed by done.
  rewrite assign_no_index by done. simpl. by rewrite insert_empty.
Qed.

(** X14: on a new context the pass over the fixed names does nothing when
    there is no fixed name; otherwise it records the first fixed member
    under its literal, throws a [TypeError] and leaves the others
    without a name. *)
Theorem assignFixed_fresh (h : Heap) (nss : list NsRef) :
  match fixedNames h (fresh nss) with
  | [] => assignFixed h (fresh nss) = (Returned (), fresh nss)
  | n :: _ =>
      assignFixed h (fresh nss)
      = (Threw TypeError,
         {| names := {[ n := name (named_at h n) ]};
            namedsForName := ∅; namespaces := nss |})
  end.
Proof. apply assignFixed_on_fresh. Qed.

(** ** The constructors *)

Section BuildFacts.

Lemma NoDup_add {A : Type} `{EqDecision A} (s : list A) (x : A) :
  NoDup s → NoDup (Immutable.add s x).
Proof. intros Hs. by apply (NoDup_foldl_add [x] s). Qed.

(** The namespaces after [new Namespace]. *)
Lemma Namespace_new_ns_at (name : string) (parent : option NsRef)
    (forb : list NsRef) (s : Store) (i : NsRef) :
  (∀ p, parent = Some p → p < nsCount s) →
  ns_at (heap (Build.Namespace_new name parent forb s).2) i =
    if decide (i = nsCount s)
    then {| _name := name; _parent := parent; _children := [];
            forbidden := forb; _members := [] |}
    else if decide (parent = Some i)
    then {| _name := _name (ns_at (heap s) i);
            _parent := _parent (ns_at (heap s) i);
            _children := Immutable.add (_children (ns_at (heap s) i)) (nsCount s);
            forbidden := forbidden (ns_at (heap s) i);
            _members := _members (ns_at (heap s) i) |}
    else ns_at (heap s) i.
Proof.
  intros Hp. unfold Build.Namespace_new. destruct parent as [p|]; simpl.
  - specialize (Hp p eq_refl).
    repeat (case_decide; simplify_eq/=); try done; lia.
  - repeat (case_decide; simplify_eq/=); done.
Qed.

Lemma Namespace_new_named_at (name : string) (parent : option NsRef)
    (forb : list NsRef) (s : Store) (n : NamedRef) :
  named_at (heap (Build.Namespace_new name parent forb s).2) n
  = named_at (heap s) n.
Proof. unfold Build.Namespace_new. by destruct parent. Qed.

(** The objects after the constructor of [Named]. *)
Lemma Named_new_ns_at (ns : NsRef) (name : string) (k : NamedKind)
    (s : Store) (i : NsRef) :
  ns_at (heap (Build.Named_new ns name k s).2) i =
    if decide (i = ns)
    then {| _name := _name (ns_at (heap s) i);
            _parent := _parent (ns_at (heap s) i);
            _children := _children (ns_at (heap s) i);
            forbidden := forbidden (ns_at (heap s) i);
            _members := Immutable.add (_members (ns_at (heap s) i))
                          (namedCount s) |}
    else ns_at (heap s) i.
Proof. simpl. by case_decide; simplify_eq. Qed.

Lemma Named_new_named_at (ns : NsRef) (name : string) (k : NamedKind)
    (s : Store) (n : NamedRef) :
  named_at (heap (Build.Named_new ns name k s).2) n =
    if decide (n = namedCount s)
    then {| namespace := ns; name := name; kind := k |}
    else named_at (heap s) n.
Proof. done. Qed.

Lemma store_ok_empty : store_ok emptyStore.
Proof.
  unfold store_ok, children, members, dependencies. simpl.
  split_and!; try done.
  - intros p c. split; [by intros ?%elem_of_nil|]. by intros [? ?].
  - intros _. split_and!; apply NoDup_nil_2.
  - intros n ns. split; [by intros ?%elem_of_nil|]. intros [? _]. lia.
  - intros n. lia.
  - intros n d. by intros ?%elem_of_nil.
  - intros ns f. by intros ?%elem_of_nil.
Qed.

Lemma store_ok_Namespace_new (name : string) (parent : option NsRef)
    (forb : list NsRef) (s : Store) :
  store_ok s → constructible s (NewNamespace name parent forb) →
  store_ok (Build.Namespace_new name parent forb s).2.
Proof.
  intros (Hns & Hnamed & Hchildren & Hparent & Hnodup & Hmembers & Hnsof
          & Hdeps & Hforb) (Hp & Hfs & Hfnd).
  pose proof (λ i, Namespace_new_ns_at name parent forb s i Hp) as Hat.
  pose proof (Namespace_new_named_at name parent forb s) as Hnat.
  unfold store_ok, children, members, dependencies in *.
  setoid_rewrite Hat. setoid_rewrite Hnat. clear Hat Hnat.
  change (nsCount (Build.Namespace_new name parent forb s).2)
    with (S (nsCount s)).
  change (namedCount (Build.Namespace_new name parent forb s).2)
    with (namedCount s).
  assert (∀ c q, _parent (ns_at (heap s) c) = Some q → c < nsCount s) as Hold.
  { intros c q Hc. destruct (decide (c < nsCount s)) as [|Hge]; [done|].
    rewrite Hns in Hc by lia. done. }
  split_and!.
  - intros i Hi. rewrite decide_False by lia.
    case_decide as Hpi; [specialize (Hp i Hpi); lia|]. apply Hns. lia.
  - done.
  - intros q c. destruct (decide (q = nsCount s)) as [->|Hq].
    + simpl. split; [by intros ?%elem_of_nil|]. intros [Hc Hpar].
      revert Hpar. case_decide as Hcn; simpl.
      * intros Hpar. specialize (Hp _ Hpar). lia.
      * case_decide; simpl; intros Hpar%Hparent; lia.
    + case_decide as Hpq; simpl.
      * rewrite elem_of_add, Hchildren. split.
        -- intros [[Hc Hpar]| ->].
           ++ split; [lia|]. rewrite decide_False by lia.
              by case_decide.
           ++ split; [lia|]. by rewrite decide_True.
        -- intros [Hc Hpar]. revert Hpar. case_decide as Hcn; [by right|].
           intros Hpar. left. split; [lia|]. by case_decide.
      * rewrite Hchildren. split.
        -- intros [Hc Hpar]. split; [lia|]. rewrite decide_False by lia.
           by case_decide.
        -- intros [Hc Hpar]. revert Hpar. case_decide as Hcn; simpl.
           ++ intros ->. done.
           ++ intros Hpar. split; [|by case_decide].
              apply (Hold c q). by case_decide.
  - intros c q. case_decide as Hcn; simpl.
    + intros Hpar. subst c. by apply Hp.
    + case_decide; simpl; apply Hparent.
  - intros ns. destruct (Hnodup ns) as (? & ? & ?).
    repeat case_decide; simpl; split_and!; try done;
      try apply NoDup_nil_2. by apply NoDup_add.
  - intros n ns. case_decide as Hnsn; simpl.
    + subst ns. split; [by intros ?%elem_of_nil|]. intros [Hn Hnsp].
      specialize (Hnsof n Hn). lia.
    + case_decide; simpl; apply Hmembers.
  - intros n Hn. specialize (Hnsof n Hn). lia.
  - done.
  - intros ns f. case_decide as Hnsn; simpl.
    + subst ns. intros Hf. by apply (proj1 (Forall_forall _ _) Hfs).
    + case_decide; simpl; apply Hforb.
Qed.

Lemma store_ok_Named_new (ns : NsRef) (name : string) (k : NamedKind)
    (s : Store) :
  store_ok s → ns < nsCount s →
  (∀ f deps g, k = DependencyNamed f deps g →
               Forall (λ d, d < namedCount s) deps) →
  store_ok (Build.Named_new ns name k s).2.
Proof.
  intros (Hns & Hnamed & Hchildren & Hparent & Hnodup & Hmembers & Hnsof
          & Hdeps & Hforb) Hlt Hk.
  pose proof (Named_new_ns_at ns name k s) as Hat.
  pose proof (Named_new_named_at ns name k s) as Hnat.
  unfold store_ok, children, members, dependencies in *.
  setoid_rewrite Hat. setoid_rewrite Hnat. clear Hat Hnat.
  change (nsCount (Build.Named_new ns name k s).2) with (nsCount s).
  change (namedCount (Build.Named_new ns name k s).2) with (S (namedCount s)).
  split_and!.
  - intros i Hi. rewrite decide_False by lia. by apply Hns.
  - intros n Hn. rewrite decide_False by lia. apply Hnamed. lia.
  - intros p c.
    destruct (decide (p = ns)); simpl; rewrite Hchildren;
      destruct (decide (c = ns)); simpl; done.
  - intros c p. case_decide; simpl; apply Hparent.
  - intros i. destruct (Hnodup i) as (? & ? & ?).
    case_decide; simpl; split_and!; try done. by apply NoDup_add.
  - intros n i. destruct (decide (i = ns)) as [->|Hi]; simpl.
    + rewrite elem_of_add, Hmembers. split.
      * intros [[Hn Hnsp]| ->].
        -- split; [lia|]. by rewrite decide_False by lia.
        -- split; [lia|]. by rewrite decide_True.
      * intros [Hn Hnsp]. revert Hnsp. case_decide as Hnn; [by right|].
        intros Hnsp. left. split; [lia|done].
    + rewrite Hmembers. split.
      * intros [Hn Hnsp]. split; [lia|]. by rewrite decide_False by lia.
      * intros [Hn Hnsp]. revert Hnsp. case_decide as Hnn; simpl; [done|].
        intros Hnsp. split; [lia|done].
  - intros n Hn. case_decide; simpl; [done|]. apply Hnsof. lia.
  - intros n d. case_decide as Hnn; simpl.
    + subst n. destruct k as [|f p|f deps g]; try by intros ?%elem_of_nil.
      intros Hd. by apply (proj1 (Forall_forall _ _) (Hk f deps g eq_refl)).
    + apply Hdeps.
  - intros i f. case_decide; simpl; apply Hforb.
Qed.

Lemma built_ok (s : Store) : built s → store_ok s.
Proof.
  induction 1 as [|s c _ IH Hc]; [apply store_ok_empty|].
  destruct c as [name parent forb|ns name|ns name f p|ns name f deps g];
    simpl in *.
  - by apply store_ok_Namespace_new.
  - apply store_ok_Named_new; [done..|]. intros; discriminate.
  - apply store_ok_Named_new; [done..|]. intros; discriminate.
  - destruct Hc as [Hns Hdeps]. apply store_ok_Named_new; [done..|].
    by intros ??? [= _ <- _].
Qed.
End BuildFacts.

Lemma renderer_store_built : built renderer_store.
Proof.
  unfold renderer_store.
  repeat (apply built_construct; [|simpl; repeat split; try lia;
    try (intros ? [= <-]; lia); try (intros; discriminate);
    repeat constructor; rewrite ?elem_of_nil; try lia; try tauto]).
  apply built_empty.
Qed.

Lemma built_parent_first (s : Store) :
  built s → parent_first (heap s) (nsCount s).
Proof.
  intros (_ & _ & Hchildren & Hparent & _)%built_ok p c Hc.
  apply Hchildren in Hc as [Hc Hpar]. split; [by apply Hparent|done].
Qed.

(** X15: in a forest built with the constructors, the children of a
    namespace are exactly the namespaces created with it as parent; a
    child is created after its parent, and no namespace is the child of
    two. *)
Theorem built_children (s : Store) :
  built s →
  (∀ p c, c ∈ children (heap s) p ↔
          c < nsCount s ∧ _parent (ns_at (heap s) c) = Some p)
  ∧ (∀ p c, c ∈ children (heap s) p → p < c)
  ∧ (∀ p q c, c ∈ children (heap s) p → c ∈ children (heap s) q → p = q).
Proof.
  intros (_ & _ & Hchildren & Hparent & _)%built_ok. split_and!.
  - done.
  - intros p c [_ Hpar]%Hchildren. by apply Hparent.
  - intros p q c [_ Hp]%Hchildren [_ Hq]%Hchildren. congruence.
Qed.

Lemma built_children_witness :
  built renderer_store
  ∧ (∀ p c, c ∈ children (heap renderer_store) p ↔
            c < nsCount renderer_store
            ∧ _parent (ns_at (heap renderer_store) c) = Some p)
  ∧ (∀ p c, c ∈ children (heap renderer_store) p → p < c)
  ∧ (∀ p q c, c ∈ children (heap renderer_store) p →
              c ∈ children (heap renderer_store) q → p = q).
Proof.
  split; [apply renderer_store_built|].
  apply (built_children renderer_store), renderer_store_built.
Defined.

(** X16: in a forest built with the constructors, the members of a
    namespace are exactly the [Named]s created in it, each once; so
    every [Named] is a member of its namespace and of no other. *)
Theorem built_members (s : Store) :
  built s →
  (∀ n ns, n ∈ members (heap s) ns ↔
           n < namedCount s ∧ namespace (named_at (heap s) n) = ns)
  ∧ (∀ ns, NoDup (members (heap s) ns))
  ∧ (∀ n ns ns', n ∈ members (heap s) ns → n ∈ members (heap s) ns' →
                 ns = ns').
Proof.
  intros (_ & _ & _ & _ & Hnodup & Hmembers & _)%built_ok. split_and!.
  - done.
  - intros ns. by destruct (Hnodup ns) as (_ & ? & _).
  - intros n ns ns' [_ H1]%Hmembers [_ H2]%Hmembers. congruence.
Qed.

Lemma built_members_witness :
  built renderer_store
  ∧ (∀ n ns, n ∈ members (heap renderer_store) ns ↔
             n < namedCount renderer_store
             ∧ namespace (named_at (heap renderer_store) n) = ns)
  ∧ (∀ ns, NoDup (members (heap renderer_store) ns))
  ∧ (∀ n ns ns', n ∈ members (heap renderer_store) ns →
                 n ∈ members (heap renderer_store) ns' → ns = ns').
Proof.
  split; [apply renderer_store_built|].
  apply (built_members renderer_store), renderer_store_built.
Defined.

(** X17: in a forest built with the constructors, a [Named] only depends
    on [Named]s created before it, so no [Named] depends on itself,
    directly or through a chain of dependencies. *)
Theorem built_dependencies_acyclic (s : Store) :
  built s →
  (∀ n d, d ∈ dependencies (heap s) n → d < n)
  ∧ ∀ n, ¬ depends_on (heap s) n n.
Proof.
  intros (_ & _ & _ & _ & _ & _ & _ & Hdeps & _)%built_ok.
  split; [done|].
  assert (∀ n m, depends_on (heap s) n m → m < n) as Hlt.
  { intros n m Hnm. induction Hnm as [n m Hd|n d m Hd _ IH].
    - by apply Hdeps.
    - apply Hdeps in Hd. lia. }
  intros n Hn. apply Hlt in Hn. lia.
Qed.

Lemma built_dependencies_acyclic_witness :
  built renderer_store
  ∧ (∀ n d, d ∈ dependencies (heap renderer_store) n → d < n)
  ∧ ∀ n, ¬ depends_on (heap renderer_store) n n.
Proof.
  split; [apply renderer_store_built|].
  apply (built_dependencies_acyclic renderer_store), renderer_store_built.
Defined.

(** X18: in a forest built with the constructors, a namespace only
    forbids namespaces created before it; it never forbids itself. *)
Theorem built_forbidden_older (s : Store) :
  built s →
  ∀ ns f, f ∈ forbidden (ns_at (heap s) ns) → f < ns.
Proof. by intros (_ & _ & _ & _ & _ & _ & _ & _ & Hforb)%built_ok. Qed.

Lemma built_forbidden_older_witness :
  built renderer_store
  ∧ ∀ ns f, f ∈ forbidden (ns_at (heap renderer_store) ns) → f < ns.
Proof.
  split; [apply renderer_store_built|].
  apply (built_forbidden_older renderer_store), renderer_store_built.
Defined.

(** X19: on a forest built with the constructors,
    [allNamespacesRecursively] ends within a depth of the number of
    namespaces plus two; for an ordered set of roots its result has no
    repeated element, starts with the roots in their order, and holds
    exactly the namespaces reachable from the roots through
    [children]. *)
Theorem built_allNamespaces (s : Store) (roots : list NsRef) :
  built s → NoDup roots →
  ∃ nss,
    allNamespacesRecursively (heap s) (2 + nsCount s) roots = Some nss
    ∧ NoDup nss
    ∧ (∃ tail, nss = roots ++ tail)
    ∧ ∀ ns, ns ∈ nss ↔ reachable (heap s) roots ns.
Proof.
  intros Hs Hroots.
  destruct (allNamespacesRecursively_total (heap s) (nsCount s)
              (built_parent_first s Hs) roots) as [nss Hnss].
  exists nss. split; [done|].
  pose proof Hnss as Hrun. change (2 + nsCount s) with (S (S (nsCount s))) in Hrun.
  rewrite allNamespacesRecursively_S in Hrun.
  apply bind_Some in Hrun as (subs & _ & [= <-]).
  split_and!.
  - by apply NoDup_union.
  - apply union_extends.
  - intros ns. by apply (allNamespacesRecursively_reachable _ _ _ _ _ Hnss).
Qed.

Lemma built_allNamespaces_witness :
  built renderer_store ∧ NoDup [1]
  ∧ ∃ nss,
      allNamespacesRecursively (heap renderer_store)
        (2 + nsCount renderer_store) [1] = Some nss
      ∧ NoDup nss
      ∧ (∃ tail, nss = [1] ++ tail)
      ∧ ∀ ns, ns ∈ nss ↔ reachable (heap renderer_store) [1] ns.
Proof.
  split; [apply renderer_store_built|]. split; [apply NoDup_singleton|].
  apply (built_allNamespaces renderer_store [1]);
    [apply renderer_store_built|apply NoDup_singleton].
Defined.

Example renderer_store_namespaces :
  allNamespacesRecursively (heap renderer_store) 5 [1] = Some [1; 2].
Proof. reflexivity. Qed.

(** What a run does once the namespaces are known. *)
Lemma assignNames_outcome (h : Heap) (depth fuel : nat) (roots nss : list NsRef) :
  allNamespacesRecursively h depth roots = Some nss →
  assignNames h depth (S fuel) roots
  = match fixedNames h (fresh nss) with
    | [] => Returned ∅
    | _ :: _ => Threw TypeError
    end.
Proof.
  intros Hnss. unfold assignNames, NamingContext_new. rewrite Hnss.
  cbn -[assignNames_loop assignFixed fixedNames]. fold (fresh nss).
  unfold bind at 1.
  pose proof (assignFixed_on_fresh h nss) as Hfixed.
  destruct (fixedNames h (fresh nss)) as [|n l]; rewrite Hfixed; [|done].
  by rewrite assignNames_loop_S.
Qed.

(** X20: on a forest built with the constructors, a run of [assignNames]
    ends, and in one of two ways: it throws a [TypeError] when a fixed
    member is reachable from the roots, and returns the empty mapping
    when none is.  It never returns a name. *)
Theorem built_assignNames (s : Store) (fuel : nat) (roots : list NsRef) :
  built s →
  (assignNames (heap s) (2 + nsCount s) (S fuel) roots = Threw TypeError
   ∧ ∃ n, fixed_member (heap s) roots n)
  ∨ (assignNames (heap s) (2 + nsCount s) (S fuel) roots = Returned ∅
     ∧ ∀ n, ¬ fixed_member (heap s) roots n).
Proof.
  intros Hs.
  destruct (allNamespacesRecursively_total (heap s) (nsCount s)
              (built_parent_first s Hs) roots) as [nss Hnss].
  rewrite (assignNames_outcome _ _ _ _ _ Hnss).
  assert (∀ n, n ∈ fixedNames (heap s) (fresh nss)
               ↔ fixed_member (heap s) roots n) as Hfixed.
  { intros n. rewrite elem_of_fixedNames. unfold fixed_member. simpl.
    by setoid_rewrite (allNamespacesRecursively_reachable _ _ _ _ _ Hnss). }
  destruct (fixedNames (heap s) (fresh nss)) as [|n l].
  - right. split; [done|]. intros n Hn%Hfixed. by apply elem_of_nil in Hn.
  - left. split; [done|]. exists n. apply Hfixed. left.
Qed.

Lemma built_assignNames_witness :
  built renderer_store
  ∧ ((assignNames (heap renderer_store) (2 + nsCount renderer_store) 1 [1; 0]
        = Threw TypeError
      ∧ ∃ n, fixed_member (heap renderer_store) [1; 0] n)
     ∨ (assignNames (heap renderer_store) (2 + nsCount renderer_store) 1 [1; 0]
          = Returned ∅
        ∧ ∀ n, ¬ fixed_member (heap renderer_store) [1; 0] n)).
Proof.
  split; [apply renderer_store_built|].
  apply (built_assignNames renderer_store 0 [1; 0]), renderer_store_built.
Defined.

Example renderer_store_runs :
  assignNames (heap renderer_store) 5 1 [1; 0] = Threw TypeError
  ∧ assignNames (heap renderer_store) 5 1 [1] = Returned ∅.
Proof. split; reflexivity. Qed.

(** ** Readiness through further assignments *)

(** X21: a namespace that is fully named stays fully named, and a [Named]
    that has a name is never ready again, whatever calls of [assign]
    follow. *)
Theorem fully_named_is_stable (h : Heap) (calls : list (NamedRef * string))
    (ctx : NamingContext) (ns : NsRef) :
  isFullyNamed h ctx ns = true →
  isFullyNamed h (assigns h calls ctx).2 ns = true
  ∧ ∀ n, n ∈ members h ns → isReadyToBeNamed h (assigns h calls ctx).2 n = false.
Proof.
  unfold isFullyNamed. rewrite !forallb_forall. intros Hall.
  assert (∀ n, In n (members h ns) →
               has_name (assigns h calls ctx).2 n = true) as Hstill.
  { intros n Hn. specialize (Hall n Hn).
    apply has_name_true in Hall as [s Hs]. apply has_name_true.
    exists s. by apply assigns_keep_name. }
  split; [done|]. intros n Hn%list_elem_of_In.
  unfold isReadyToBeNamed. by rewrite Hstill.
Qed.

Lemma fully_named_is_stable_witness :
  isFullyNamed clash_forest
    (assigns clash_forest [(0, "Type"); (1, "Type")] (fresh [0])).2 0 = true
  ∧ isFullyNamed clash_forest
      (assigns clash_forest [(0, "Other")]
         (assigns clash_forest [(0, "Type"); (1, "Type")] (fresh [0])).2).2 0
    = true
  ∧ ∀ n, n ∈ members clash_forest 0 →
      isReadyToBeNamed clash_forest
        (assigns clash_forest [(0, "Other")]
           (assigns clash_forest [(0, "Type"); (1, "Type")] (fresh [0])).2).2 n
      = false.
Proof.
  split; [reflexivity|].
  apply (fully_named_is_stable clash_forest [(0, "Other")]). reflexivity.
Defined.

(** ** Step 3 with the counting naming function *)

(** On a context with an empty index and a set whose first member has
    no name, step 3 with the counting naming function records for that
    member the first name of the batch, which is not forbidden, and
    then stops with the [TypeError] of [assign]. *)
Lemma nameSet_counting_first (h : Heap) (forbiddenNames : gset string)
    (named : NamedRef) (rest : list NamedRef) (proposed : string)
    (ctx : NamingContext) :
  namedsForName ctx = ∅ → names ctx !! named = None →
  ∃ k nm,
    k ≤ size forbiddenNames
    ∧ head (batch proposed k (S (length rest))) = Some nm
    ∧ (nm ∉ forbiddenNames)
    ∧ nameSet h (Some counting) forbiddenNames (named :: rest) proposed ctx
      = (Threw TypeError,
         {| names := <[named := nm]> (names ctx);
            namedsForName := namedsForName ctx;
            namespaces := namespaces ctx |}).
Proof.
  intros Hempty Hnone.
  destruct (name_returns proposed forbiddenNames (S (length rest)))
    as (k & Hk & Hname & Hfree & _); [lia|].
  pose proof (batch_length proposed k (S (length rest)) ltac:(lia)) as Hlen.
  pose proof (toOrderedSet_NoDup _ (batch_NoDup proposed k (S (length rest))))
    as Hset.
  destruct (batch proposed k (S (length rest))) as [|nm nms] eqn:Hb;
    [discriminate Hlen|].
  exists k, nm. split_and!; [done|by rewrite Hb| |].
  - rewrite blocked_false in Hfree. apply Hfree. left.
  - unfold nameSet, bind, lift. cbn [length].
    change (NamingFunction.name counting) with CountingNamingFunction.name.
    rewrite Hname, Hset. rewrite decide_False by (simpl in *; lia).
    cbn [zip zip_with forEach]. unfold bind.
    rewrite assign_no_index by done.
    apply has_name_false in Hnone. by rewrite Hnone.
Qed.

(** X22: with the counting naming function, step 3 never throws
    "Naming function returned wrong number of names", for no set of
    [Named]s, no forbidden names and no context: the method returns as
    many names as it is asked for, and when the set is empty it throws
    its own "Number of names can't be less than 1" before the number is
    looked at. *)
Theorem nameSet_counting (h : Heap) (forbiddenNames : gset string)
    (nameds : list NamedRef) (proposed : string) (ctx : NamingContext) :
  (nameSet h (Some counting) forbiddenNames nameds proposed ctx).1
    ≠ Threw wrongNumberOfNames
  ∧ nameSet h (Some counting) forbiddenNames [] proposed ctx
    = (Threw (ThrowString "Number of names can't be less than 1"), ctx).
Proof.
  split; [|reflexivity].
  unfold nameSet, bind, lift.
  change (NamingFunction.name counting) with CountingNamingFunction.name.
  destruct nameds as [|named rest]; [discriminate|].
  destruct (name_returns proposed forbiddenNames (length (named :: rest)))
    as (k & _ & -> & _); [simpl; lia|].
  rewrite (toOrderedSet_NoDup _ (batch_NoDup proposed k _)).
  rewrite decide_False by (rewrite batch_length; simpl; lia).
  apply forEach_assign_outcome.
Qed.

(** ** Nullable unions *)

Lemma NoDup_all_equal {T : Type} (l : list T) (x : T) :
  NoDup l → x ∈ l → (∀ y, y ∈ l → y = x) → l = [x].
Proof.
  intros Hnd Hx Hall. destruct l as [|a l]; [by apply elem_of_nil in Hx|].
  assert (a = x) as -> by (apply Hall; left).
  destruct l as [|b l]; [done|].
  assert (b = x) as -> by (apply Hall; right; left).
  apply NoDup_cons in Hnd as [Hnin _]. destruct Hnin. left.
Qed.

(** X23: [nullableFromUnion] returns a type exactly when the union has a
    null member and exactly one member that is not null, which is the
    type it returns; in every other case it returns [null]. *)
Theorem nullableFromUnion_spec {T : Type} (isNull : T → bool)
    (members : list T) (x : T) :
  NoDup members →
  nullableFromUnion isNull members = Some x ↔
  (∃ m, m ∈ members ∧ isNull m = true)
  ∧ x ∈ members ∧ isNull x = false
  ∧ ∀ y, y ∈ members → isNull y = false → y = x.
Proof.
  intros Hnd. unfold nullableFromUnion.
  assert (∀ y, y ∈ List.filter (λ m, negb (isNull m)) members
               ↔ y ∈ members ∧ isNull y = false) as Hfilter.
  { intros y. rewrite list_elem_of_In, filter_In, negb_true_iff.
    by rewrite list_elem_of_In. }
  assert (NoDup (List.filter (λ m, negb (isNull m)) members)) as Hnd'.
  { apply NoDup_ListNoDup, List.NoDup_filter. by apply NoDup_ListNoDup. }
  destruct (existsb isNull members) eqn:Hnull; simpl.
  - apply existsb_exists in Hnull as (m & Hm & Hmnull).
    apply list_elem_of_In in Hm.
    case_decide as Hlen.
    + split; [done|]. intros (_ & Hx & Hxn & Huniq). destruct Hlen.
      rewrite (NoDup_all_equal _ x Hnd'); [done|by apply Hfilter|].
      intros y [? ?]%Hfilter. by apply Huniq.
    + destruct (List.filter _ members) as [|a [|b l]] eqn:Hl; try done.
      simpl. split.
      * intros [= ->]. split; [eauto|].
        destruct (proj1 (Hfilter x)) as [? ?]; [left|].
        split_and!; [done..|]. intros y Hy Hyn.
        assert (y ∈ [x]) as Hin by (by apply Hfilter).
        by apply list_elem_of_singleton in Hin.
      * intros (_ & Hx & Hxn & _). f_equal.
        assert (x ∈ [a]) as Hin by (by apply Hfilter).
        by apply list_elem_of_singleton in Hin.
  - split; [done|]. intros ((m & Hm & Hmnull) & _).
    apply not_true_iff_false in Hnull. destruct Hnull.
    apply existsb_exists. exists m. by rewrite <-list_elem_of_In.
Qed.

Lemma nullableFromUnion_spec_witness :
  NoDup [0; 7]
  ∧ (nullableFromUnion (Nat.eqb 0) [0; 7] = Some 7 ↔
     (∃ m, m ∈ [0; 7] ∧ Nat.eqb 0 m = true)
     ∧ 7 ∈ [0; 7] ∧ Nat.eqb 0 7 = false
     ∧ ∀ y, y ∈ [0; 7] → Nat.eqb 0 y = false → y = 7).
Proof.
  assert (NoDup [0; 7]) as Hnd.
  { repeat constructor; rewrite ?elem_of_cons, ?elem_of_nil; lia. }
  split; [done|]. by apply (nullableFromUnion_spec (Nat.eqb 0) [0; 7] 7).
Defined.

Example nullableFromUnion_cases :
  nullableFromUnion (Nat.eqb 0) [0; 7] = Some 7
  ∧ nullableFromUnion (Nat.eqb 0) [7] = None
  ∧ nullableFromUnion (Nat.eqb 0) [0; 7; 8] = None
  ∧ nullableFromUnion (Nat.eqb 0) [0] = None.
Proof. repeat split. Qed.
